(** * parser.c: a classifying lexer and its recursive-descent primitives

    A shallow embedding of [parser.c] / [parser.h] and the properties of its
    scanner ([advance], [peek], [skip_whitespace], [make_token], [lex]) and of
    its consumption primitives ([have], [match], [expect], [parse_int],
    [parse_float], [parse_text]).

    Modelling conventions.
    - A [char] read through a pointer is a [Z]; [EOF] is [-1].  The memory
      reachable from [parser->src] is a [list Z]; a read past the end of the
      list yields NUL, which is what [parse_init_file] stores at [src[size]]
      and what follows a C string literal.  The list may be longer than the
      span [src .. end]: the parser only borrows a span of the caller's memory.
    - Pointers into the source ([ptr], [end], [tok.start]) are offsets from
      [src].
    - The anonymous union of [tok_t] is its 64 bits of storage; [i64] reads
      them as a two's complement integer and [f64] as an IEEE 754 binary64
      pattern.  A [double] is its binary64 bit pattern.
    - The [int] counters [line] and [column] are unbounded integers: they
      cannot overflow on a buffer shorter than 2^31 bytes.
    - [long] is 64 bits wide (LP64), so [atol] yields an [int64_t]. *)

From Stdlib Require Import ZArith List String Ascii Bool Lia.
Import ListNotations.
Local Open Scope Z_scope.

(** ** Characters and the C library *)

Definition EOF : Z := -1.

(** The [char] values of an ASCII string. *)
Definition chars (s : string) : list Z :=
  map (fun a => Z.of_nat (nat_of_ascii a)) (list_ascii_of_string s).

Definition isdigit (c : Z) : bool := (48 <=? c) && (c <=? 57).

Definition isalpha (c : Z) : bool :=
  ((65 <=? c) && (c <=? 90)) || ((97 <=? c) && (c <=? 122)).

Definition isalnum (c : Z) : bool := isalpha c || isdigit c.

Definition isspace (c : Z) : bool := ((9 <=? c) && (c <=? 13)) || (c =? 32).

Definition INT64_MAX : Z := 2 ^ 63 - 1.
Definition INT64_MIN : Z := - 2 ^ 63.

(** Storing an [int64_t] into 64 bits and reading it back. *)
Definition bits_of_i64 (z : Z) : Z := z mod 2 ^ 64.
Definition i64_of_bits (b : Z) : Z := if b <? 2 ^ 63 then b else b - 2 ^ 64.

(** [strtol] in base 10 saturates at the bounds of [long]. *)
Definition saturate (z : Z) : Z := Z.max INT64_MIN (Z.min INT64_MAX z).

Fixpoint skip_space (s : list Z) : list Z :=
  match s with
  | c :: s' => if isspace c then skip_space s' else s
  | [] => []
  end.

(** The value of the leading run of decimal digits of [s], continuing [acc]. *)
Fixpoint digits_value (acc : Z) (s : list Z) : Z :=
  match s with
  | c :: s' => if isdigit c then digits_value (acc * 10 + (c - 48)) s' else acc
  | [] => acc
  end.

(** The optional sign of a number: whether it is a minus, and what follows. *)
Definition scan_sign (s : list Z) : bool * list Z :=
  match s with
  | c :: s' =>
      if c =? 45 then (true, s') else if c =? 43 then (false, s') else (false, s)
  | [] => (false, [])
  end.

Definition strtol10 (s : list Z) : Z :=
  let (neg, s') := scan_sign (skip_space s) in
  saturate (if neg then - digits_value 0 s' else digits_value 0 s').

(** [atol(mem + start)]: the C string starts at offset [start] and runs to the
    first NUL, wherever the token ends. *)
Definition atol (mem : list Z) (start : nat) : Z := strtol10 (skipn start mem).

(** *** binary64 *)

Definition NAN : Z := 0x7FF8000000000000.
Definition B64_INFINITY : Z := 0x7FF0000000000000.
Definition B64_SIGN : Z := 0x8000000000000000.

(** Round the quotient [n / d] ([d > 0], [n >= 0]) to an integer, ties to even. *)
Definition div_half_even (n d : Z) : Z :=
  let q := n / d in
  let r := n mod d in
  if 2 * r <? d then q
  else if d <? 2 * r then q + 1
  else if Z.even q then q else q + 1.

(** The binary64 pattern nearest to [+- a / b] for [a, b > 0] (round to
    nearest, ties to even; overflow gives an infinity, underflow a subnormal
    or a zero). *)
Definition b64_round (neg : bool) (a b : Z) : Z :=
  let e0 := Z.log2 a - Z.log2 b in
  let ge := if 0 <=? e0 then b * 2 ^ e0 <=? a else b <=? a * 2 ^ (- e0) in
  let e := Z.max (if ge then e0 else e0 - 1) (-1022) in
  let sh := 52 - e in
  let m := if 0 <=? sh then div_half_even (a * 2 ^ sh) b
           else div_half_even a (b * 2 ^ (- sh)) in
  let magnitude := Z.min ((e + 1022) * 2 ^ 52 + m) B64_INFINITY in
  (if neg then B64_SIGN else 0) + magnitude.

(** The binary64 pattern of [+- m * 10^e]. *)
Definition b64_of_decimal (neg : bool) (m e : Z) : Z :=
  if m =? 0 then (if neg then B64_SIGN else 0)
  else if 0 <=? e then b64_round neg (m * 10 ^ e) 1
  else b64_round neg m (10 ^ (- e)).

(** The conversion [(double) z] of an [int64_t]. *)
Definition double_of_i64 (z : Z) : Z := b64_of_decimal (z <? 0) (Z.abs z) 0.

(** The leading run of decimal digits of [s]: its value continuing [acc], the
    number of digits read, and what follows. *)
Fixpoint scan_digits (acc : Z) (n : Z) (s : list Z) : Z * Z * list Z :=
  match s with
  | c :: s' =>
      if isdigit c then scan_digits (acc * 10 + (c - 48)) (n + 1) s'
      else (acc, n, s)
  | [] => (acc, n, [])
  end.

(** The exponent part of a decimal floating literal; it counts only when a
    digit follows the optional sign. *)
Definition scan_exponent (s : list Z) : Z :=
  match s with
  | c :: s' =>
      if (c =? 101) || (c =? 69) then
        let (neg, s'') := scan_sign s' in
        let '(v, n, _) := scan_digits 0 0 s'' in
        if n =? 0 then 0 else if neg then - v else v
      else 0
  | [] => 0
  end.

(** [strtod] on a decimal subject sequence.  The [inf], [nan] and hexadecimal
    forms are left out: their second character is a letter, so no token the
    automaton classifies as a float starts with one. *)
Definition strtod (s : list Z) : Z :=
  let (neg, s1) := scan_sign (skip_space s) in
  let '(ip, ni, s2) := scan_digits 0 0 s1 in
  let '(m, nf, s3) :=
    match s2 with
    | c :: t => if c =? 46 then scan_digits ip 0 t else (ip, 0, s2)
    | [] => (ip, 0, s2)
    end in
  if (ni + nf =? 0) then 0
  else b64_of_decimal neg m (scan_exponent s3 - nf).

Definition atof (mem : list Z) (start : nat) : Z := strtod (skipn start mem).

(** [strncpy(out, mem + s, n)]: the [n] bytes it writes, NUL padded once the
    source string ends. *)
Fixpoint strncpy_bytes (mem : list Z) (s : nat) (n : nat) : list Z :=
  match n with
  | O => []
  | S n' =>
      let c := nth s mem 0 in
      if c =? 0 then repeat 0 n else c :: strncpy_bytes mem (S s) n'
  end.

Definition strncpy (out : list Z) (mem : list Z) (s : nat) (n : nat) : list Z :=
  strncpy_bytes mem s n ++ skipn n out.

(** ** Data model ([parser.h]) *)

Inductive tok_kind_t := TOK_INVALID | TOK_TEXT | TOK_INT | TOK_FLOAT | TOK_EOF.

Definition tok_kind_eqb (a b : tok_kind_t) : bool :=
  match a, b with
  | TOK_INVALID, TOK_INVALID | TOK_TEXT, TOK_TEXT | TOK_INT, TOK_INT
  | TOK_FLOAT, TOK_FLOAT | TOK_EOF, TOK_EOF => true
  | _, _ => false
  end.

Record tok_t := mk_tok {
  kind : tok_kind_t;
  start : nat;
  len : nat;
  tok_line : Z;
  tok_column : Z;
  bits64 : Z            (* union { double f64; int64_t i64; } *)
}.

Definition i64 (t : tok_t) : Z := i64_of_bits (bits64 t).
Definition f64 (t : tok_t) : Z := bits64 t.

Record parser_t := mk_parser {
  owns_src : bool;
  src : list Z;
  end_ : nat;
  ptr : nat;
  line : Z;
  column : Z;
  tok : tok_t;
  error : option string
}.

(** Field updates. *)

Definition set_kind (t : tok_t) (k : tok_kind_t) : tok_t :=
  mk_tok k (start t) (len t) (tok_line t) (tok_column t) (bits64 t).

Definition set_len (t : tok_t) (n : nat) : tok_t :=
  mk_tok (kind t) (start t) n (tok_line t) (tok_column t) (bits64 t).

Definition set_bits64 (t : tok_t) (b : Z) : tok_t :=
  mk_tok (kind t) (start t) (len t) (tok_line t) (tok_column t) b.

Definition set_origin (t : tok_t) (s : nat) (l c : Z) : tok_t :=
  mk_tok (kind t) s (len t) l c (bits64 t).

Definition set_cursor (p : parser_t) (q : nat) (l c : Z) : parser_t :=
  mk_parser (owns_src p) (src p) (end_ p) q l c (tok p) (error p).

Definition set_tok (p : parser_t) (t : tok_t) : parser_t :=
  mk_parser (owns_src p) (src p) (end_ p) (ptr p) (line p) (column p) t (error p).

Definition set_error (p : parser_t) (e : option string) : parser_t :=
  mk_parser (owns_src p) (src p) (end_ p) (ptr p) (line p) (column p) (tok p) e.

(** [*(parser->src + i)]. *)
Definition deref (p : parser_t) (i : nat) : Z := nth i (src p) 0.

(** The bytes of the current token, [tok.start .. tok.start + tok.len]. *)
Definition lexeme (p : parser_t) : list Z :=
  firstn (len (tok p)) (skipn (start (tok p)) (src p)).

(** ** Bookkeeping *)

(** The state [parse_init] builds before its first call to [lex]. *)
Definition fresh (mem : list Z) (n : nat) : parser_t :=
  mk_parser false mem n 0 0 1 (mk_tok TOK_INVALID 0 0 0 0 0) None.

(** [parse_fail]: the message is the formatted text; a parser that has
    already failed keeps its message. *)
Definition parse_fail (p : parser_t) (msg : string) : parser_t :=
  match error p with
  | Some _ => p
  | None => set_error p (Some msg)
  end.

(** ** The scanner *)

Definition advance (p : parser_t) : Z * parser_t :=
  match error p with
  | Some _ => (0, p)
  | None =>
      if (ptr p =? end_ p)%nat then (EOF, p)
      else
        let current := deref p (ptr p) in
        let q := S (ptr p) in
        if deref p q =? 10
        then (current, set_cursor p q (line p + 1) 0)
        else (current, set_cursor p q (line p) (column p + 1))
  end.

Definition peek (p : parser_t) : Z :=
  match error p with
  | Some _ => 0
  | None => if (ptr p =? end_ p)%nat then EOF else deref p (ptr p)
  end.

(** The [while] loop of the ['#'] case.  Every iteration consumes a byte, so
    [end - ptr] iterations are enough. *)
Fixpoint skip_comment (fuel : nat) (p : parser_t) : parser_t :=
  if negb (peek p =? 10) && negb (peek p =? EOF) then
    match fuel with
    | O => p
    | S n => skip_comment n (snd (advance p))
    end
  else p.

(** The [for(;;)] loop of [skip_whitespace]. *)
Fixpoint skip_whitespace_loop (fuel : nat) (p : parser_t) : parser_t :=
  let c := peek p in
  if (c =? 9) || (c =? 13) || (c =? 32) || (c =? 10) then
    match fuel with
    | O => p
    | S n => skip_whitespace_loop n (snd (advance p))
    end
  else if c =? 35 then
    match fuel with
    | O => p
    | S n => skip_whitespace_loop n (skip_comment (end_ p - ptr p) p)
    end
  else p.

Definition skip_whitespace (p : parser_t) : parser_t :=
  skip_whitespace_loop (end_ p - ptr p) p.

Definition is_tok_char (c : Z) : bool :=
  isalnum c || (c =? 46) || (c =? 43) || (c =? 45).

Inductive lex_state :=
  STATE_INT | STATE_FLOAT | STATE_EXP_SIGN | STATE_EXP | STATE_TEXT.

(** The [switch(state)] inside the loop of [make_token]. *)
Definition classify_step (state : lex_state) (c : Z) : lex_state :=
  match state with
  | STATE_INT =>
      if c =? 46 then STATE_FLOAT
      else if negb (isdigit c) then STATE_TEXT else STATE_INT
  | STATE_FLOAT =>
      if (c =? 69) || (c =? 101) then STATE_EXP_SIGN
      else if negb (isdigit c) then STATE_TEXT else STATE_FLOAT
  | STATE_EXP_SIGN =>
      if (c =? 43) || (c =? 45) then STATE_EXP else STATE_TEXT
  | STATE_EXP => if negb (isdigit c) then STATE_TEXT else STATE_EXP
  | STATE_TEXT => STATE_TEXT
  end.

(** The [switch(state)] after the loop. *)
Definition kind_of_state (state : lex_state) : tok_kind_t :=
  match state with
  | STATE_INT => TOK_INT
  | STATE_FLOAT | STATE_EXP => TOK_FLOAT
  | _ => TOK_TEXT
  end.

(** The [for(;;)] loop of [make_token]: the byte that ends the run is consumed
    too.  Every iteration that continues has consumed a byte. *)
Fixpoint make_token_loop (fuel : nat) (p : parser_t) (n : nat) (state : lex_state)
  : parser_t * nat * lex_state :=
  let (c, p') := advance p in
  if negb (is_tok_char c) then (p', n, state)
  else
    match fuel with
    | O => (p', S n, classify_step state c)
    | S k => make_token_loop k p' (S n) (classify_step state c)
    end.

Definition make_token (p : parser_t) : parser_t :=
  let p1 := snd (advance p) in
  let '(p2, n, state) := make_token_loop (end_ p1 - ptr p1) p1 1 STATE_INT in
  let t := set_len (set_kind (tok p2) (kind_of_state state)) n in
  let t :=
    match kind t with
    | TOK_INT => set_bits64 t (bits_of_i64 (atol (src p2) (start t)))
    | TOK_FLOAT => set_bits64 t (atof (src p2) (start t))
    | _ => t
    end in
  set_tok p2 t.

Definition lex (p : parser_t) : parser_t :=
  match error p with
  | Some _ => p
  | None =>
      let p1 := skip_whitespace p in
      let p2 := set_tok p1 (set_origin (tok p1) (ptr p1) (line p1) (column p1)) in
      let c := peek p2 in
      if c =? EOF then set_tok p2 (set_kind (tok p2) TOK_EOF)
      else if is_tok_char c then make_token p2
      else set_tok p2 (set_kind (tok p2) TOK_INVALID)
  end.

(** [parse_init]: [None] when [PARSE_ASSERT(len > 0)] fails. *)
Definition parse_init (mem : list Z) (n : nat) : option parser_t :=
  if (n =? 0)%nat then None else Some (lex (fresh mem n)).

(** ** Recursive descent primitives *)

Definition have (p : parser_t) (k : tok_kind_t) : bool :=
  tok_kind_eqb (kind (tok p)) k.

Definition match_ (p : parser_t) (k : tok_kind_t) : bool * parser_t :=
  if negb (have p k) then (false, p) else (true, lex p).

Definition tok_name (k : tok_kind_t) : string :=
  match k with
  | TOK_INVALID => "an invalid token"
  | TOK_EOF => "the end of file"
  | TOK_INT => "an integer"
  | TOK_FLOAT => "a number"
  | TOK_TEXT => "a word"
  end.

Definition syntax_error (p : parser_t) (k : tok_kind_t) : parser_t :=
  match error p with
  | Some _ => p
  | None =>
      parse_fail p ("found " ++ tok_name (kind (tok p)) ++ ", but needed "
                    ++ tok_name k)
  end.

Definition expect (p : parser_t) (k : tok_kind_t) : parser_t :=
  match error p with
  | Some _ => p
  | None => if negb (have p k) then syntax_error p k else lex p
  end.

(** ** Helpers *)

Definition parse_int (p : parser_t) : Z * parser_t :=
  match error p with
  | Some _ => (0, p)
  | None =>
      let p1 := if negb (have p TOK_INT) then syntax_error p TOK_INT else p in
      let val := i64 (tok p1) in
      (val, lex p1)
  end.

Definition parse_float (p : parser_t) : Z * parser_t :=
  match error p with
  | Some _ => (0, p)
  | None =>
      if negb (have p TOK_INT) && negb (have p TOK_FLOAT)
      then (NAN, syntax_error p TOK_FLOAT)
      else
        let val := if tok_kind_eqb (kind (tok p)) TOK_FLOAT
                   then f64 (tok p) else double_of_i64 (i64 (tok p)) in
        (val, lex p)
  end.

(** [out] is [None] for a null pointer; the result is the returned length, the
    parser and the output buffer afterwards. *)
Definition parse_text (p : parser_t) (out : option (list Z)) (cap : nat)
  : nat * parser_t * option (list Z) :=
  match error p with
  | Some _ => (O, p, out)
  | None =>
      if negb (have p TOK_TEXT) then (O, syntax_error p TOK_TEXT, out)
      else
        let n := len (tok p) in
        let s := start (tok p) in
        let p' := lex p in
        match out with
        | None => (n, p', None)
        | Some buf =>
            let n := if (cap <? n)%nat then cap else n in
            (n, p', Some (strncpy buf (src p) s cap))
        end
  end.

(** ** Token streams *)

(** What a caller sees of a token: its kind and, for the numeric kinds, the
    member of the union that kind selects. *)
Inductive view := VInvalid | VText | VInt (z : Z) | VFloat (d : Z) | VEof.

Definition view_of (t : tok_t) : view :=
  match kind t with
  | TOK_INVALID => VInvalid
  | TOK_TEXT => VText
  | TOK_INT => VInt (i64 t)
  | TOK_FLOAT => VFloat (f64 t)
  | TOK_EOF => VEof
  end.

(** The current token and those [lex] yields after it, up to the first
    end-of-file token; at most [fuel] of them. *)
Fixpoint tokens (fuel : nat) (p : parser_t) : list view :=
  match fuel with
  | O => []
  | S n =>
      view_of (tok p) ::
      match kind (tok p) with
      | TOK_EOF => []
      | _ => tokens n (lex p)
      end
  end.

(** Lexing a whole buffer from its start. *)
Definition tokenize (fuel : nat) (mem : list Z) : list view :=
  tokens fuel (lex (fresh mem (List.length mem))).

(** ** Vocabulary of the properties *)

(** [same_buffer p p']: the step from [p] to [p'] kept the buffer, its bounds
    and the error slot; [same_token] also kept the current token. *)
Definition same_buffer (p p' : parser_t) : Prop :=
  owns_src p' = owns_src p /\ src p' = src p /\ end_ p' = end_ p /\
  error p' = error p.

Definition same_token (p p' : parser_t) : Prop :=
  same_buffer p p' /\ tok p' = tok p.

(** The operations of [parser.h] on a live parser, and [syntax_error]. *)
Inductive op :=
| Op_parse_fail (msg : string)
| Op_lex
| Op_have (k : tok_kind_t)
| Op_match (k : tok_kind_t)
| Op_expect (k : tok_kind_t)
| Op_syntax_error (k : tok_kind_t)
| Op_parse_int
| Op_parse_float
| Op_parse_text (out : option (list Z)) (cap : nat).

(** The parser after an operation, whatever it returned. *)
Definition run (o : op) (p : parser_t) : parser_t :=
  match o with
  | Op_parse_fail msg => parse_fail p msg
  | Op_lex => lex p
  | Op_have _ => p
  | Op_match k => snd (match_ p k)
  | Op_expect k => expect p k
  | Op_syntax_error k => syntax_error p k
  | Op_parse_int => snd (parse_int p)
  | Op_parse_float => snd (parse_float p)
  | Op_parse_text out cap => snd (fst (parse_text p out cap))
  end.

Definition run_all (os : list op) (p : parser_t) : parser_t :=
  fold_left (fun q o => run o q) os p.

(** The message [syntax_error] formats. *)
Definition mismatch (found needed : tok_kind_t) : string :=
  "found " ++ tok_name found ++ ", but needed " ++ tok_name needed.

(** Sample parsers. *)

(** The buffer [abc] after a [parse_int]: the word is still the current token
    and the mismatch is latched. *)
Definition failed_on_word : parser_t :=
  snd (parse_int (lex (fresh (chars "abc") 3))).

(** The buffer [12 abc] after one [parse_int]: the current token is the word. *)
Definition word_after_int : parser_t :=
  snd (parse_int (lex (fresh (chars "12 abc") 6))).

(** The buffer [abc] after [parse_init]. *)
Definition at_word : parser_t := lex (fresh (chars "abc") 3).

(** The buffer [(] after [parse_init]. *)
Definition at_paren : parser_t := lex (fresh (chars "(") 1).

(** [scanning p pre post beyond]: the parser has no error, its span is
    [pre ++ post], the memory after the span is [beyond], and the cursor
    stands between [pre] and [post]. *)
Definition scanning (p : parser_t) (pre post beyond : list Z) : Prop :=
  error p = None /\
  src p = pre ++ post ++ beyond /\
  ptr p = List.length pre /\
  end_ p = List.length (pre ++ post).

(** The four characters [skip_whitespace] consumes one at a time. *)
Definition is_blank (c : Z) : bool :=
  (c =? 9) || (c =? 13) || (c =? 32) || (c =? 10).

(** [post] starts with a byte for which [f] is false, or is empty. *)
Definition stops (f : Z -> bool) (post : list Z) : Prop :=
  match post with
  | [] => True
  | d :: _ => f d = false
  end.

(** The state of the automaton after the characters [run] that follow the
    first one. *)
Definition classify (run : list Z) : lex_state :=
  fold_left classify_step run STATE_INT.

(** The token [make_token] leaves after a lexeme whose characters after the
    first are [run], given the token [t] that [lex] prepared and the memory
    [mem]. *)
Definition finished_token (t : tok_t) (mem : list Z) (run : list Z) : tok_t :=
  let t' := set_len (set_kind t (kind_of_state (classify run)))
                    (S (List.length run)) in
  match kind_of_state (classify run) with
  | TOK_INT => set_bits64 t' (bits_of_i64 (atol mem (start t)))
  | TOK_FLOAT => set_bits64 t' (atof mem (start t))
  | _ => t'
  end.

(** *** Integer literals and buffers of them *)

(** A decimal integer literal: an optional sign, then one digit or more. *)
Definition is_int_literal (l : list Z) : bool :=
  match l with
  | c :: ds =>
      if (c =? 43) || (c =? 45)
      then negb (Nat.eqb (List.length ds) 0) && forallb isdigit ds
      else forallb isdigit l
  | [] => false
  end.

(** The number a string of digits denotes. *)
Definition decimal (ds : list Z) : Z :=
  fold_left (fun a d => a * 10 + (d - 48)) ds 0.

(** The number a literal denotes. *)
Definition literal_value (l : list Z) : Z :=
  match l with
  | c :: ds =>
      if c =? 45 then - decimal ds
      else if c =? 43 then decimal ds
      else decimal l
  | [] => 0
  end.

(** A valid literal is well formed and denotes an [int64_t]. *)
Definition valid_literal (l : list Z) : Prop :=
  is_int_literal l = true /\ INT64_MIN <= literal_value l <= INT64_MAX.

(** The buffer of the literals [snd it], each after the blanks [fst it],
    with the blanks [trail] at the end. *)
Fixpoint spaced (items : list (list Z * list Z)) (trail : list Z) : list Z :=
  match items with
  | [] => trail
  | it :: rest => fst it ++ snd it ++ spaced rest trail
  end.

(** Every literal but the first has a blank before it. *)
Definition separated (items : list (list Z * list Z)) : Prop :=
  Forall (fun it => fst it <> []) (tl items).

(** What a buffer of literals asks of an item: blanks, then a valid literal. *)
Definition item_ok (it : list Z * list Z) : Prop :=
  forallb is_blank (fst it) = true /\ valid_literal (snd it).

(** ** Vocabulary of the further properties *)

(** [kept p p']: from [p] to [p'] the buffer, its bounds and its ownership
    are the same and the cursor has not moved back nor left the span. *)
Definition kept (p p' : parser_t) : Prop :=
  owns_src p' = owns_src p /\ src p' = src p /\ end_ p' = end_ p /\
  (ptr p <= ptr p' <= end_ p)%nat.

(** *** The grammar of the automaton *)

Fixpoint drop_digits (l : list Z) : list Z :=
  match l with
  | c :: r => if isdigit c then drop_digits r else l
  | [] => []
  end.

(** Nothing, or an [e] or [E], a sign and digits (none is fine). *)
Definition exponent_shape (l : list Z) : bool :=
  match l with
  | [] => true
  | e :: s :: r =>
      ((e =? 69) || (e =? 101)) && ((s =? 43) || (s =? 45)) && forallb isdigit r
  | _ => false
  end.

(** Digits, a point, digits, and an exponent or nothing. *)
Definition float_shape (l : list Z) : bool :=
  match drop_digits l with
  | c :: r => (c =? 46) && exponent_shape (drop_digits r)
  | [] => false
  end.

(** The kind of a lexeme by the characters after its first one. *)
Definition kind_by_shape (run : list Z) : tok_kind_t :=
  if forallb isdigit run then TOK_INT
  else if float_shape run then TOK_FLOAT
  else TOK_TEXT.

(** *** Blanks and comments *)

(** [blank_text false l]: [l] is made of blanks and of comments, each from a
    [#] to the end of its line or of the input.  [blank_text true l]: the
    same for an [l] that starts inside a comment.  A comment holds no byte
    whose [char] value is that of [EOF]. *)
Fixpoint blank_text (in_comment : bool) (l : list Z) : bool :=
  match l with
  | [] => true
  | c :: r =>
      if in_comment then
        if c =? 10 then blank_text false r
        else negb (c =? EOF) && blank_text true r
      else if is_blank c then blank_text false r
      else (c =? 35) && blank_text true r
  end.

(** *** Positions *)

(** The number of newline bytes of [mem] at the offsets [a + 1 .. b]. *)
Definition newlines_between (mem : list Z) (a b : nat) : Z :=
  Z.of_nat (List.length
              (filter (fun i => nth i mem 0 =? 10) (seq (S a) (b - a)))).

(** [tracked p p']: from [p] to [p'] the cursor went forward over the same
    bytes, the line grew by the newlines at the offsets just passed and now
    under the cursor, and without any the column grew by the distance. *)
Definition tracked (p p' : parser_t) : Prop :=
  src p' = src p /\
  (ptr p <= ptr p')%nat /\
  line p' = line p + newlines_between (src p) (ptr p) (ptr p') /\
  (newlines_between (src p) (ptr p) (ptr p') = 0 ->
   column p' = column p + Z.of_nat (ptr p' - ptr p)).

(** *** Sequences of calls *)

(** [n] calls of [parse_int] in a row: the values returned, in order, and the
    parser afterwards. *)
Fixpoint parse_ints (n : nat) (p : parser_t) : list Z * parser_t :=
  match n with
  | O => ([], p)
  | S k =>
      let (v, p1) := parse_int p in
      let (vs, p2) := parse_ints k p1 in
      (v :: vs, p2)
  end.

(** *** The longest run of token characters *)

(** The token characters at the head of [l], and what follows them. *)
Fixpoint token_run (l : list Z) : list Z :=
  match l with
  | c :: r => if is_tok_char c then c :: token_run r else []
  | [] => []
  end.

Fixpoint after_run (l : list Z) : list Z :=
  match l with
  | c :: r => if is_tok_char c then after_run r else l
  | [] => []
  end.
(** * Properties *)

(** Closed facts about sample buffers are settled by evaluation. *)
Ltac evaluate :=
  repeat match goal with |- _ /\ _ => split end;
  vm_compute; first [reflexivity | congruence].

(** ** What the scanner leaves alone *)

Lemma same_buffer_refl p : same_buffer p p.
Proof. repeat split. Qed.

Lemma same_buffer_trans p q r :
  same_buffer p q -> same_buffer q r -> same_buffer p r.
Proof.
  intros (A1 & A2 & A3 & A4) (B1 & B2 & B3 & B4).
  repeat split; congruence.
Qed.

Lemma same_token_refl p : same_token p p.
Proof. split; [apply same_buffer_refl | reflexivity]. Qed.

Lemma same_token_trans p q r :
  same_token p q -> same_token q r -> same_token p r.
Proof.
  intros [A1 A2] [B1 B2]. split.
  - eapply same_buffer_trans; eassumption.
  - congruence.
Qed.

Lemma advance_same_token p : same_token p (snd (advance p)).
Proof.
  unfold advance. destruct (error p); [apply same_token_refl|].
  destruct (ptr p =? end_ p)%nat; [apply same_token_refl|].
  destruct (deref p (S (ptr p)) =? 10); repeat split.
Qed.

Lemma skip_comment_same_token fuel : forall p, same_token p (skip_comment fuel p).
Proof.
  induction fuel as [|n IH]; intros p; simpl;
    destruct (negb (peek p =? 10) && negb (peek p =? EOF));
    try apply same_token_refl.
  eapply same_token_trans; [apply advance_same_token | apply IH].
Qed.

Lemma skip_whitespace_loop_same_token fuel :
  forall p, same_token p (skip_whitespace_loop fuel p).
Proof.
  induction fuel as [|n IH]; intros p; simpl;
    (destruct ((peek p =? 9) || (peek p =? 13) || (peek p =? 32) || (peek p =? 10));
     [|destruct (peek p =? 35)]); try apply same_token_refl.
  - eapply same_token_trans; [apply advance_same_token | apply IH].
  - eapply same_token_trans; [apply skip_comment_same_token | apply IH].
Qed.

Lemma skip_whitespace_same_token p : same_token p (skip_whitespace p).
Proof. apply skip_whitespace_loop_same_token. Qed.

Lemma make_token_loop_same_token fuel :
  forall p n st, same_token p (fst (fst (make_token_loop fuel p n st))).
Proof.
  induction fuel as [|k IH]; intros p n st; simpl;
    pose proof (advance_same_token p) as A;
    destruct (advance p) as [c p']; simpl in A;
    destruct (negb (is_tok_char c)); simpl; auto.
  eapply same_token_trans; [exact A | apply IH].
Qed.

Lemma make_token_same_buffer p : same_buffer p (make_token p).
Proof.
  unfold make_token.
  pose proof (advance_same_token p) as [A _].
  pose proof (make_token_loop_same_token
                (end_ (snd (advance p)) - ptr (snd (advance p)))
                (snd (advance p)) 1 STATE_INT) as [B _].
  destruct (make_token_loop _ _ _ _) as [[p2 n] st]. simpl in B.
  eapply same_buffer_trans; [exact A|].
  eapply same_buffer_trans; [exact B|].
  repeat split.
Qed.

Lemma lex_same_buffer p : same_buffer p (lex p).
Proof.
  unfold lex. destruct (error p) eqn:E; [apply same_buffer_refl|].
  pose proof (skip_whitespace_same_token p) as [A _].
  set (p1 := skip_whitespace p) in *.
  set (p2 := set_tok p1 _).
  assert (B : same_buffer p p2)
    by (eapply same_buffer_trans; [exact A | repeat split]).
  destruct (peek p2 =? EOF).
  - eapply same_buffer_trans; [exact B | repeat split].
  - destruct (is_tok_char (peek p2)).
    + eapply same_buffer_trans; [exact B | apply make_token_same_buffer].
    + eapply same_buffer_trans; [exact B | repeat split].
Qed.

Lemma lex_error p : error (lex p) = error p.
Proof. apply lex_same_buffer. Qed.

Lemma lex_failed p e : error p = Some e -> lex p = p.
Proof. intros E. unfold lex. now rewrite E. Qed.

(** What [advance] does to the position: it looks at the byte after the one
    it consumes. *)
Lemma advance_position p :
  error p = None -> ptr p <> end_ p ->
  advance p
  = (deref p (ptr p),
     if deref p (S (ptr p)) =? 10
     then set_cursor p (S (ptr p)) (line p + 1) 0
     else set_cursor p (S (ptr p)) (line p) (column p + 1)).
Proof.
  intros E N. unfold advance. rewrite E.
  apply Nat.eqb_neq in N. rewrite N.
  now destruct (deref p (S (ptr p)) =? 10).
Qed.

(** ** The loops end by their own conditions

    The loops of the scanner are written with a bound on their iterations:
    the bytes left before [end].  On a parser whose cursor is within its span
    the bound is never what ends them. *)

Lemma advance_ptr p :
  error p = None -> ptr p <> end_ p -> ptr (snd (advance p)) = S (ptr p).
Proof.
  intros E N. rewrite (advance_position p E N). simpl.
  now destruct (deref p (S (ptr p)) =? 10).
Qed.

Lemma peek_at_end p : ptr p = end_ p -> peek p = EOF \/ peek p = 0.
Proof.
  intros H. unfold peek. destruct (error p); [now right|].
  rewrite H, Nat.eqb_refl. now left.
Qed.

Lemma skip_comment_exits fuel :
  forall p,
    error p = None ->
    (ptr p <= end_ p)%nat ->
    (end_ p - ptr p <= fuel)%nat ->
    negb (peek (skip_comment fuel p) =? 10)
      && negb (peek (skip_comment fuel p) =? EOF) = false /\
    (ptr p <= ptr (skip_comment fuel p) <= end_ p)%nat.
Proof.
  induction fuel as [|n IH]; intros p E B F; simpl;
    destruct (negb (peek p =? 10) && negb (peek p =? EOF)) eqn:C;
    try (split; [exact C | lia]).
  - exfalso. assert (H : ptr p = end_ p) by lia.
    unfold peek in C. rewrite E, H, Nat.eqb_refl in C. discriminate.
  - assert (N : ptr p <> end_ p).
    { intros H. unfold peek in C. rewrite E, H, Nat.eqb_refl in C. discriminate. }
    destruct (advance_same_token p) as [(_ & _ & En & Er) _].
    pose proof (advance_ptr p E N) as P.
    destruct (IH (snd (advance p))) as [X Y]; try lia; try congruence.
Qed.

Lemma skip_whitespace_loop_exits fuel :
  forall p,
    error p = None ->
    (ptr p <= end_ p)%nat ->
    (end_ p - ptr p <= fuel)%nat ->
    is_blank (peek (skip_whitespace_loop fuel p))
      || (peek (skip_whitespace_loop fuel p) =? 35) = false /\
    (ptr p <= ptr (skip_whitespace_loop fuel p) <= end_ p)%nat.
Proof.
  induction fuel as [|n IH]; intros p E B F; simpl; fold (is_blank (peek p));
    destruct (is_blank (peek p)) eqn:C1;
    try (destruct (peek p =? 35) eqn:C2;
         [|split; [rewrite C1, C2; reflexivity | lia]]).
  - exfalso. assert (H : ptr p = end_ p) by lia.
    unfold peek in C1. rewrite E, H, Nat.eqb_refl in C1. discriminate.
  - exfalso. assert (H : ptr p = end_ p) by lia.
    unfold peek in C2. rewrite E, H, Nat.eqb_refl in C2. discriminate.
  - assert (N : ptr p <> end_ p).
    { intros H. unfold peek in C1. rewrite E, H, Nat.eqb_refl in C1. discriminate. }
    destruct (advance_same_token p) as [(_ & _ & En & Er) _].
    pose proof (advance_ptr p E N) as P.
    destruct (IH (snd (advance p))) as [X Y]; try lia; try congruence.
    try (split; [exact X | lia]).
  - assert (N : ptr p <> end_ p).
    { intros H. unfold peek in C2. rewrite E, H, Nat.eqb_refl in C2. discriminate. }
    apply Z.eqb_eq in C2.
    destruct (skip_comment_same_token (end_ p - ptr p) p) as [(_ & _ & En & Er) _].
    assert (P : (S (ptr p) <= ptr (skip_comment (end_ p - ptr p) p) <= end_ p)%nat).
    { destruct (end_ p - ptr p)%nat as [|m] eqn:M; [lia|].
      simpl. rewrite C2. simpl.
      destruct (advance_same_token p) as [(_ & _ & En' & Er') _].
      pose proof (advance_ptr p E N) as P'.
      destruct (skip_comment_exits m (snd (advance p))) as [_ Y];
        try lia; congruence. }
    destruct (IH (skip_comment (end_ p - ptr p) p)) as [X Y];
      try lia; try congruence.
    try (split; [exact X | lia]).
Qed.

(** [skip_whitespace] stops in front of a byte that is neither a blank nor the
    start of a comment, within the span. *)
Lemma skip_whitespace_exits p :
  error p = None ->
  (ptr p <= end_ p)%nat ->
  is_blank (peek (skip_whitespace p)) || (peek (skip_whitespace p) =? 35) = false /\
  (ptr p <= ptr (skip_whitespace p) <= end_ p)%nat.
Proof. intros E B. now apply skip_whitespace_loop_exits. Qed.

Lemma advance_tok_char p :
  is_tok_char (fst (advance p)) = true ->
  error p = None /\ ptr p <> end_ p.
Proof.
  unfold advance. destruct (error p); [discriminate|].
  destruct (ptr p =? end_ p)%nat eqn:H; [discriminate|].
  intros _. split; [reflexivity | now apply Nat.eqb_neq].
Qed.

(** More iterations than the bytes left change nothing for [make_token]. *)
Lemma make_token_loop_fuel fuel :
  forall p n st,
    (ptr p <= end_ p)%nat ->
    (end_ p - ptr p <= fuel)%nat ->
    make_token_loop (S fuel) p n st = make_token_loop fuel p n st.
Proof.
  induction fuel as [|k IH]; intros p n st B F.
  - simpl. pose proof (advance_tok_char p) as A.
    destruct (advance p) as [c p']. simpl in A.
    destruct (is_tok_char c); [|reflexivity].
    destruct A as [_ A]; [reflexivity | lia].
  - change (make_token_loop (S (S k)) p n st)
      with (let (c, p') := advance p in
            if negb (is_tok_char c) then (p', n, st)
            else make_token_loop (S k) p' (S n) (classify_step st c)).
    change (make_token_loop (S k) p n st)
      with (let (c, p') := advance p in
            if negb (is_tok_char c) then (p', n, st)
            else make_token_loop k p' (S n) (classify_step st c)).
    pose proof (advance_tok_char p) as A.
    pose proof (advance_ptr p) as P.
    destruct (advance_same_token p) as [(_ & _ & En & _) _].
    destruct (advance p) as [c p']. simpl in A, P, En.
    destruct (is_tok_char c); [|reflexivity]. simpl.
    destruct A as [E N]; [reflexivity|].
    specialize (P E N). apply IH; lia.
Qed.

Lemma make_token_loop_bounds fuel :
  forall p n st,
    (ptr p <= end_ p)%nat ->
    (ptr p <= ptr (fst (fst (make_token_loop fuel p n st))) <= end_ p)%nat.
Proof.
  assert (A : forall p, (ptr p <= end_ p)%nat ->
                        (ptr p <= ptr (snd (advance p)) <= end_ p)%nat).
  { intros p B. unfold advance. destruct (error p); [simpl; lia|].
    destruct (ptr p =? end_ p)%nat eqn:H; [simpl; lia|].
    apply Nat.eqb_neq in H.
    destruct (deref p (S (ptr p)) =? 10); simpl; lia. }
  induction fuel as [|k IH]; intros p n st B; simpl;
    specialize (A p B);
    destruct (advance_same_token p) as [(_ & _ & En & _) _];
    destruct (advance p) as [c p']; simpl in A, En;
    destruct (negb (is_tok_char c)); simpl; try lia.
  specialize (IH p' (S n) (classify_step st c)). lia.
Qed.

(** [lex] keeps the cursor within the span. *)
Lemma lex_in_bounds p :
  (ptr p <= end_ p)%nat -> (ptr (lex p) <= end_ (lex p))%nat.
Proof.
  intros B. destruct (lex_same_buffer p) as (_ & _ & En & _). rewrite En.
  unfold lex. destruct (error p) eqn:E; [exact B|].
  destruct (skip_whitespace_exits p E B) as [_ B1].
  destruct (skip_whitespace_same_token p) as [(_ & _ & En1 & _) _].
  set (p1 := skip_whitespace p) in *.
  set (p2 := set_tok p1 _).
  destruct (peek p2 =? EOF); [simpl; lia|].
  destruct (is_tok_char (peek p2)); [|simpl; lia].
  unfold make_token.
  assert (A : (ptr p2 <= ptr (snd (advance p2)) <= end_ p2)%nat).
  { unfold advance. destruct (error p2); [simpl; lia|].
    destruct (ptr p2 =? end_ p2)%nat eqn:H; [simpl; lia|].
    apply Nat.eqb_neq in H.
    destruct (deref p2 (S (ptr p2)) =? 10); simpl in *; lia. }
  destruct (advance_same_token p2) as [(_ & _ & En2 & _) _].
  set (p3 := snd (advance p2)) in *.
  pose proof (make_token_loop_bounds (end_ p3 - ptr p3) p3 1 STATE_INT) as L.
  destruct (make_token_loop _ p3 1%nat STATE_INT) as [[p4 n] st].
  change (ptr p4 <= end_ p)%nat.
  assert (P2 : ptr p2 = ptr p1) by reflexivity.
  assert (E2 : end_ p2 = end_ p1) by reflexivity.
  simpl in L. lia.
Qed.

(** ** Latched errors *)

Lemma parse_fail_failed p e msg : error p = Some e -> parse_fail p msg = p.
Proof. intros E. unfold parse_fail. now rewrite E. Qed.

Lemma syntax_error_failed p e k : error p = Some e -> syntax_error p k = p.
Proof. intros E. unfold syntax_error. now rewrite E. Qed.

Lemma syntax_error_latches p k :
  error p = None -> syntax_error p k = set_error p (Some (mismatch (kind (tok p)) k)).
Proof. intros E. unfold syntax_error, parse_fail. now rewrite E. Qed.

Lemma run_failed o p e : error p = Some e -> run o p = p.
Proof.
  intros E. destruct o; simpl.
  - now apply parse_fail_failed with e.
  - now apply lex_failed with e.
  - reflexivity.
  - unfold match_. destruct (negb (have p k)); simpl; [reflexivity|].
    now apply lex_failed with e.
  - unfold expect. now rewrite E.
  - now apply syntax_error_failed with e.
  - unfold parse_int. now rewrite E.
  - unfold parse_float. now rewrite E.
  - unfold parse_text. now rewrite E.
Qed.

Lemma run_all_failed os : forall p e, error p = Some e -> run_all os p = p.
Proof.
  induction os as [|o os IH]; intros p e E; simpl; [reflexivity|].
  rewrite (run_failed o p e E). now apply IH with e.
Qed.

(** C7.  First error wins: once the error slot of a parser holds a message,
    no sequence of operations ([parse_fail], [lex], [have], [match], [expect],
    [syntax_error], [parse_int], [parse_float], [parse_text]) replaces it. *)
Theorem first_error_wins :
  forall (os : list op) (p : parser_t) (e : string),
    error p = Some e -> error (run_all os p) = Some e.
Proof.
  intros os p e E. now rewrite (run_all_failed os p e E).
Qed.

Lemma first_error_wins_witness :
  error failed_on_word = Some "found a word, but needed an integer"%string /\
  error (run_all [Op_parse_fail "again"; Op_expect TOK_EOF; Op_parse_float;
                  Op_match TOK_TEXT; Op_parse_text None 0] failed_on_word)
  = Some "found a word, but needed an integer"%string.
Proof.
  split; [reflexivity|].
  apply (first_error_wins _ failed_on_word). reflexivity.
Defined.

(** C1, as the code has it.  On a parser with a latched error, [match],
    [expect], [parse_int], [parse_float] and [parse_text] leave the whole
    parser (cursor, position, current token, error) as it is, and [lex]
    returns at once; [parse_int] returns 0, [parse_float] returns 0.0 and
    [parse_text] returns 0 and hands the output buffer back untouched. *)
Theorem latched_error_noop :
  forall (p : parser_t) (e : string),
    error p = Some e ->
    lex p = p /\
    (forall k, snd (match_ p k) = p) /\
    (forall k, expect p k = p) /\
    parse_int p = (0, p) /\
    parse_float p = (0, p) /\
    (forall out cap, parse_text p out cap = (O, p, out)).
Proof.
  intros p e E. repeat split; intros.
  - now apply lex_failed with e.
  - apply (run_failed (Op_match k) p e E).
  - unfold expect. now rewrite E.
  - unfold parse_int. now rewrite E.
  - unfold parse_float. now rewrite E.
  - unfold parse_text. now rewrite E.
Qed.

Lemma latched_error_noop_witness :
  error failed_on_word = Some "found a word, but needed an integer"%string /\
  parse_float failed_on_word = (0, failed_on_word).
Proof.
  split; [reflexivity|].
  apply (latched_error_noop failed_on_word
           "found a word, but needed an integer"%string eq_refl).
Defined.

(** C1 as stated fails: with the mismatch latched and the word still current,
    [match] answers true for a word, and [parse_float] returns 0.0, which is
    not the NaN it documents for a failure. *)
Lemma latched_error_match_true :
  error failed_on_word = Some "found a word, but needed an integer"%string /\
  match_ failed_on_word TOK_TEXT = (true, failed_on_word) /\
  fst (parse_float failed_on_word) = 0 /\
  fst (parse_float failed_on_word) <> NAN.
Proof. evaluate. Qed.

(** ** [expect] *)

Lemma tok_kind_eqb_eq a b : tok_kind_eqb a b = true <-> a = b.
Proof. destruct a, b; simpl; split; congruence. Qed.

Lemma have_true p k : have p k = true <-> kind (tok p) = k.
Proof. apply tok_kind_eqb_eq. Qed.

Lemma have_false p k : have p k = false <-> kind (tok p) <> k.
Proof.
  unfold have. destruct (tok_kind_eqb (kind (tok p)) k) eqn:H.
  - apply tok_kind_eqb_eq in H. split; [discriminate | congruence].
  - split; [|reflexivity]. intros _ K. apply tok_kind_eqb_eq in K. congruence.
Qed.


(** ** [parse_int] *)

Lemma parse_int_integer p :
  error p = None -> kind (tok p) = TOK_INT ->
  parse_int p = (i64 (tok p), lex p).
Proof.
  intros E K. unfold parse_int. rewrite E.
  apply have_true in K. now rewrite K.
Qed.

(** On a mismatch [parse_int] latches the error and goes on to return the
    [i64] member of the union, whatever the token left there. *)
Lemma parse_int_mismatch p :
  error p = None -> kind (tok p) <> TOK_INT ->
  parse_int p
  = (i64 (tok p), set_error p (Some (mismatch (kind (tok p)) TOK_INT))).
Proof.
  intros E K. unfold parse_int. rewrite E.
  apply have_false in K. rewrite K. simpl.
  rewrite (syntax_error_latches p _ E).
  now rewrite (lex_failed _ (mismatch (kind (tok p)) TOK_INT)).
Qed.

(** C2 at the buffer [12 abc].  The first [parse_int] returns 12 and leaves
    the word [abc] current; the second one latches the mismatch and returns
    12 again, the value the integer left in the union, not 0. *)
Theorem parse_int_mismatch_returns_stale :
  parse_int (lex (fresh (chars "12 abc") 6)) = (12, word_after_int) /\
  kind (tok word_after_int) = TOK_TEXT /\
  error word_after_int = None /\
  parse_int word_after_int
  = (12, set_error word_after_int (Some "found a word, but needed an integer"%string)).
Proof. evaluate. Qed.

(** ** Position tracking *)

(** C4 at the buffer of a newline and the letter [a].  Consuming the newline
    leaves the line at 0 and moves the column from 1 to 2; after the whole
    buffer is lexed the line is still 0.  In the buffer [a], newline, it is
    consuming the letter that bumps the line and resets the column. *)
Theorem advance_newline_not_counted :
  advance (fresh [10; 97] 2) = (10, set_cursor (fresh [10; 97] 2) 1 0 2) /\
  line (lex (lex (fresh [10; 97] 2))) = 0 /\
  kind (tok (lex (lex (fresh [10; 97] 2)))) = TOK_EOF /\
  advance (fresh [97; 10] 2) = (97, set_cursor (fresh [97; 10] 2) 1 1 0).
Proof. evaluate. Qed.

(** ** Classification of sample lexemes *)

(** C5.  Each sample, lexed as the only lexeme of its buffer, is one token of
    the stated kind and value followed by the end of file: [123] is the
    integer 123, [123.45] the float nearest to 123.45, [1.5e-3] the float
    nearest to 0.0015, [1.5e] and [abc123] words, [-42] the integer -42 and
    [+3.0] the float 3.0. *)
Theorem classification_samples :
  tokenize 2 (chars "123") = [VInt 123; VEof] /\
  tokenize 2 (chars "123.45") = [VFloat (b64_of_decimal false 12345 (-2)); VEof] /\
  tokenize 2 (chars "1.5e-3") = [VFloat (b64_of_decimal false 15 (-4)); VEof] /\
  tokenize 2 (chars "1.5e") = [VText; VEof] /\
  tokenize 2 (chars "abc123") = [VText; VEof] /\
  tokenize 2 (chars "-42") = [VInt (-42); VEof] /\
  tokenize 2 (chars "+3.0") = [VFloat (b64_of_decimal false 3 0); VEof] /\
  b64_of_decimal false 12345 (-2) = 0x405EDCCCCCCCCCCD /\
  b64_of_decimal false 15 (-4) = 0x3F589374BC6A7EFA /\
  b64_of_decimal false 3 0 = 0x4008000000000000.
Proof. evaluate. Qed.

(** ** Invalid characters *)

(** C9, as the code has it.  When the byte after the whitespace and comments
    is neither the end of input nor a token character, [lex] marks the
    current token invalid, with its start and origin at that byte; the cursor
    stays on the byte and the token keeps the length and the value it had. *)
Theorem lex_invalid :
  forall p : parser_t,
    error p = None ->
    peek (skip_whitespace p) <> EOF ->
    is_tok_char (peek (skip_whitespace p)) = false ->
    let p1 := skip_whitespace p in
    lex p = set_tok p1 (mk_tok TOK_INVALID (ptr p1) (len (tok p))
                               (line p1) (column p1) (bits64 (tok p))) /\
    ptr (lex p) = ptr p1 /\
    len (tok (lex p)) = len (tok p).
Proof.
  intros p E N T p1.
  assert (L : lex p = set_tok p1 (mk_tok TOK_INVALID (ptr p1) (len (tok p))
                                   (line p1) (column p1) (bits64 (tok p)))).
  { unfold lex. rewrite E. fold p1.
    destruct (skip_whitespace_same_token p) as [(_ & _ & _ & E1) T1].
    fold p1 in E1, T1.
    assert (P : peek (set_tok p1 (set_origin (tok p1) (ptr p1) (line p1) (column p1)))
                = peek p1) by reflexivity.
    rewrite P. subst p1.
    apply Z.eqb_neq in N. rewrite N, T.
    unfold set_tok, set_kind, set_origin; simpl. now rewrite T1. }
  rewrite L. repeat split.
Qed.

Lemma lex_invalid_witness :
  ptr (lex (fresh (chars " (") 2)) = 1%nat /\
  len (tok (lex (fresh (chars " (") 2))) = O.
Proof.
  assert (E : error (fresh (chars " (") 2) = None) by reflexivity.
  assert (N : peek (skip_whitespace (fresh (chars " (") 2)) <> EOF)
    by (vm_compute; discriminate).
  assert (T : is_tok_char (peek (skip_whitespace (fresh (chars " (") 2))) = false)
    by reflexivity.
  destruct (lex_invalid _ E N T) as (_ & A & B).
  split; [exact A | exact B].
Defined.

(** C9 as stated fails on the buffer [(]: the invalid token has length 0 and
    the cursor is still at offset 0, so lexing again yields the same token. *)
Lemma lex_invalid_stays :
  kind (tok at_paren) = TOK_INVALID /\
  len (tok at_paren) = O /\
  ptr at_paren = O /\
  lex at_paren = at_paren.
Proof. evaluate. Qed.

(** ** [parse_init] *)

(** On a span that is not empty [parse_init] is the fresh state lexed once. *)
Lemma parse_init_lexes mem n :
  n <> O -> parse_init mem n = Some (lex (fresh mem n)).
Proof.
  intros N. unfold parse_init.
  apply Nat.eqb_neq in N. now rewrite N.
Qed.

(** ** Scanning a buffer of known content *)

Lemma scanning_peek_cons p pre c post b :
  scanning p pre (c :: post) b -> peek p = c.
Proof.
  intros (E & Sr & P & N). unfold peek, deref. rewrite E, P, N, Sr.
  rewrite length_app. simpl.
  replace (List.length pre =? List.length pre + S (List.length post))%nat
    with false by (symmetry; apply Nat.eqb_neq; lia).
  apply nth_middle.
Qed.

Lemma scanning_peek_nil p pre b : scanning p pre [] b -> peek p = EOF.
Proof.
  intros (E & Sr & P & N). unfold peek. rewrite E, P, N, app_nil_r.
  now rewrite Nat.eqb_refl.
Qed.

Lemma scanning_advance_cons p pre c post b :
  scanning p pre (c :: post) b ->
  fst (advance p) = c /\ scanning (snd (advance p)) (pre ++ [c]) post b.
Proof.
  intros (E & Sr & P & N).
  assert (D : ptr p <> end_ p) by (rewrite P, N, length_app; simpl; lia).
  rewrite (advance_position p E D).
  assert (C : deref p (ptr p) = c)
    by (unfold deref; rewrite Sr, P; apply nth_middle).
  split; [exact C|].
  destruct (deref p (S (ptr p)) =? 10); simpl;
    (repeat split; simpl;
     [ exact E
     | rewrite Sr, <- app_assoc; reflexivity
     | rewrite P, length_app; simpl; lia
     | rewrite N, <- app_assoc; reflexivity ]).
Qed.

Lemma scanning_advance_nil p pre b : scanning p pre [] b -> advance p = (EOF, p).
Proof.
  intros (E & Sr & P & N). unfold advance. rewrite E, P, N, app_nil_r.
  now rewrite Nat.eqb_refl.
Qed.

Lemma is_blank_not_tok c : is_blank c = true -> is_tok_char c = false.
Proof.
  unfold is_blank, is_tok_char, isalnum, isalpha, isdigit. intros H.
  repeat (apply orb_true_iff in H; destruct H as [H|H]);
    apply Z.eqb_eq in H; subst; reflexivity.
Qed.

(** [skip_whitespace] steps over a run of blanks and stops at what follows. *)
Lemma skip_whitespace_loop_blanks ws :
  forall fuel p pre post b,
    scanning p pre (ws ++ post) b ->
    forallb is_blank ws = true ->
    stops (fun d => is_blank d || (d =? 35)) post ->
    (List.length ws <= fuel)%nat ->
    scanning (skip_whitespace_loop fuel p) (pre ++ ws) post b.
Proof.
  induction ws as [|w ws IH]; intros fuel p pre post b Sc B St F.
  - rewrite app_nil_r. simpl in Sc.
    assert (R : skip_whitespace_loop fuel p = p).
    { destruct post as [|d post].
      - pose proof (scanning_peek_nil _ _ _ Sc) as K.
        destruct fuel; simpl; rewrite K; reflexivity.
      - pose proof (scanning_peek_cons _ _ _ _ _ Sc) as K.
        simpl in St. apply orb_false_iff in St. destruct St as [S1 S2].
        unfold is_blank in S1.
        destruct fuel; simpl; rewrite K, S1, S2; reflexivity. }
    now rewrite R.
  - simpl in Sc, B, F. apply andb_true_iff in B. destruct B as [Bw B].
    destruct fuel as [|fuel]; [lia|].
    pose proof (scanning_peek_cons _ _ _ _ _ Sc) as K.
    simpl. rewrite K. unfold is_blank in Bw. rewrite Bw.
    destruct (scanning_advance_cons _ _ _ _ _ Sc) as [_ Sc'].
    replace (pre ++ w :: ws) with ((pre ++ [w]) ++ ws)
      by (rewrite <- app_assoc; reflexivity).
    apply IH; auto. lia.
Qed.

(** The loop of [make_token] on a run of token characters: it counts them,
    steps the automaton over them and consumes the byte that ends the run,
    when there is one. *)
Lemma make_token_loop_run run :
  forall fuel p pre post b n st,
    scanning p pre (run ++ post) b ->
    forallb is_tok_char run = true ->
    stops is_tok_char post ->
    (List.length run <= fuel)%nat ->
    exists p',
      make_token_loop fuel p n st
      = (p', (n + List.length run)%nat, fold_left classify_step run st) /\
      scanning p' (pre ++ run ++ firstn 1 post) (skipn 1 post) b /\
      tok p' = tok p.
Proof.
  induction run as [|c run IH]; intros fuel p pre post b n st Sc T St F.
  - simpl in Sc. simpl. rewrite Nat.add_0_r.
    destruct post as [|d post].
    + exists p. rewrite app_nil_r. split; [|split; auto].
      destruct fuel; simpl; rewrite (scanning_advance_nil _ _ _ Sc); reflexivity.
    + destruct (scanning_advance_cons _ _ _ _ _ Sc) as [A Sc'].
      destruct (advance_same_token p) as [_ Tk].
      exists (snd (advance p)). simpl in St. simpl.
      split; [|split; auto].
      destruct fuel; simpl; destruct (advance p) as [c' p']; simpl in *;
        subst c'; rewrite St; reflexivity.
  - simpl in Sc, T, F. apply andb_true_iff in T. destruct T as [Tc T].
    destruct fuel as [|fuel]; [lia|].
    destruct (scanning_advance_cons _ _ _ _ _ Sc) as [A Sc'].
    destruct (advance_same_token p) as [_ Tk].
    destruct (IH fuel (snd (advance p)) (pre ++ [c]) post b (S n)
                 (classify_step st c) Sc' T St ltac:(lia))
      as (p' & L & Sc'' & Tk').
    exists p'. split; [|split].
    + simpl. destruct (advance p) as [c' p1]; simpl in *. subst c'.
      rewrite Tc. simpl. rewrite L. f_equal. f_equal. lia.
    + rewrite <- app_assoc in Sc''. exact Sc''.
    + congruence.
Qed.

Lemma scanning_set_tok p t pre post b :
  scanning p pre post b -> scanning (set_tok p t) pre post b.
Proof. intros H. exact H. Qed.

Lemma is_tok_char_not_blank c :
  is_tok_char c = true -> is_blank c || (c =? 35) = false.
Proof.
  intros T. destruct (is_blank c) eqn:B.
  - apply is_blank_not_tok in B. congruence.
  - simpl. destruct (c =? 35) eqn:H; [|reflexivity].
    apply Z.eqb_eq in H. subst. discriminate.
Qed.

Lemma is_tok_char_not_EOF c : is_tok_char c = true -> (c =? EOF) = false.
Proof.
  intros T. destruct (c =? EOF) eqn:H; [|reflexivity].
  apply Z.eqb_eq in H. subst. discriminate.
Qed.

(** [make_token] on a lexeme [c :: run] that ends at [post]. *)
Lemma make_token_run p pre c run post b :
  scanning p pre (c :: run ++ post) b ->
  forallb is_tok_char run = true ->
  stops is_tok_char post ->
  exists p',
    make_token p = set_tok p' (finished_token (tok p) (src p) run) /\
    scanning p' (pre ++ c :: run ++ firstn 1 post) (skipn 1 post) b.
Proof.
  intros Sc T St.
  destruct (scanning_advance_cons _ _ _ _ _ Sc) as [_ Sc1].
  destruct (advance_same_token p) as [(_ & S1 & _ & _) Tk1].
  set (p1 := snd (advance p)) in *.
  assert (F : (List.length run <= end_ p1 - ptr p1)%nat).
  { destruct Sc1 as (_ & _ & P & N). rewrite P, N, !length_app. lia. }
  destruct (make_token_loop_run run _ p1 _ post b 1%nat STATE_INT Sc1 T St F)
    as (p2 & L & Sc2 & Tk2).
  destruct (make_token_loop_same_token (end_ p1 - ptr p1) p1 1 STATE_INT)
    as [(_ & S2 & _ & _) _].
  rewrite L in S2. simpl in S2.
  exists p2. split.
  - unfold make_token. fold p1. rewrite L.
    unfold finished_token, classify. rewrite Tk2, Tk1, S2, S1.
    destruct (kind_of_state (fold_left classify_step run STATE_INT)); reflexivity.
  - rewrite <- app_assoc in Sc2. exact Sc2.
Qed.

(** [lex] on blanks followed by a lexeme [c :: run] that ends at [post]. *)
Lemma lex_token p pre ws c run post b :
  scanning p pre (ws ++ c :: run ++ post) b ->
  forallb is_blank ws = true ->
  is_tok_char c = true ->
  forallb is_tok_char run = true ->
  stops is_tok_char post ->
  exists p' l col,
    lex p = set_tok p' (finished_token
                          (set_origin (tok p) (List.length (pre ++ ws)) l col)
                          (src p) run) /\
    scanning p' (pre ++ ws ++ c :: run ++ firstn 1 post) (skipn 1 post) b.
Proof.
  intros Sc B Tc T St.
  assert (E : error p = None) by apply Sc.
  assert (F : (List.length ws <= end_ p - ptr p)%nat).
  { destruct Sc as (_ & _ & P & N). rewrite P, N, !length_app. lia. }
  pose proof (skip_whitespace_loop_blanks ws _ p pre (c :: run ++ post) b
                Sc B (is_tok_char_not_blank c Tc) F) as Sc1.
  fold (skip_whitespace p) in Sc1.
  destruct (skip_whitespace_same_token p) as [(_ & S1 & _ & _) Tk1].
  set (p1 := skip_whitespace p) in *.
  set (p2 := set_tok p1 (set_origin (tok p1) (ptr p1) (line p1) (column p1))).
  assert (Sc2 : scanning p2 (pre ++ ws) (c :: run ++ post) b) by exact Sc1.
  destruct (make_token_run p2 _ c run post b Sc2 T St) as (p' & M & Sc').
  exists p', (line p1), (column p1). split.
  - unfold lex. rewrite E. fold p1. fold p2.
    rewrite (scanning_peek_cons _ _ _ _ _ Sc2).
    rewrite (is_tok_char_not_EOF c Tc), Tc, M.
    assert (P1 : ptr p1 = List.length (pre ++ ws)) by apply Sc1.
    unfold p2. simpl. rewrite Tk1, S1, P1. reflexivity.
  - rewrite <- app_assoc in Sc'. exact Sc'.
Qed.

(** [lex] at the end of the input, blanks apart. *)
Lemma lex_eof p pre ws b :
  scanning p pre ws b ->
  forallb is_blank ws = true ->
  kind (tok (lex p)) = TOK_EOF.
Proof.
  intros Sc B.
  assert (E : error p = None) by apply Sc.
  assert (F : (List.length ws <= end_ p - ptr p)%nat).
  { destruct Sc as (_ & _ & P & N). rewrite P, N, !length_app. lia. }
  rewrite <- (app_nil_r ws) in Sc.
  pose proof (skip_whitespace_loop_blanks ws _ p pre [] b Sc B I F) as Sc1.
  fold (skip_whitespace p) in Sc1.
  unfold lex. rewrite E.
  set (p1 := skip_whitespace p) in *.
  set (p2 := set_tok p1 _).
  assert (K : peek p2 = EOF) by (apply (scanning_peek_nil p2 (pre ++ ws) b); exact Sc1).
  rewrite K. reflexivity.
Qed.

(** ** The first character of a lexeme *)

Lemma finished_token_kind t mem run :
  kind (finished_token t mem run) = kind_of_state (classify run).
Proof.
  unfold finished_token.
  destruct (kind_of_state (classify run)) eqn:K; simpl; auto.
Qed.

Lemma finished_token_len t mem run :
  len (finished_token t mem run) = S (List.length run).
Proof.
  unfold finished_token. destruct (kind_of_state (classify run)); reflexivity.
Qed.

Lemma finished_token_start t mem run :
  start (finished_token t mem run) = start t.
Proof.
  unfold finished_token. destruct (kind_of_state (classify run)); reflexivity.
Qed.

(** C10.  For a lexeme [c :: run] (a token character [c], the token
    characters [run] after it, then the end of the input or a byte that is
    no token character), reached over blanks, the kind [lex] assigns is
    computed from [run] alone: the automaton starts in [STATE_INT] and is
    stepped over [run], never over [c].  So a lexeme of one token character,
    whichever it is, is classified as an integer. *)
Theorem first_char_not_inspected :
  forall p pre ws c run post b,
    scanning p pre (ws ++ c :: run ++ post) b ->
    forallb is_blank ws = true ->
    is_tok_char c = true ->
    forallb is_tok_char run = true ->
    stops is_tok_char post ->
    kind (tok (lex p)) = kind_of_state (fold_left classify_step run STATE_INT) /\
    len (tok (lex p)) = S (List.length run) /\
    (run = [] -> kind (tok (lex p)) = TOK_INT /\ len (tok (lex p)) = 1%nat).
Proof.
  intros p pre ws c run post b Sc B Tc T St.
  destruct (lex_token p pre ws c run post b Sc B Tc T St) as (p' & l & col & L & _).
  rewrite L. simpl. rewrite finished_token_kind, finished_token_len.
  split; [reflexivity|]. split; [reflexivity|].
  intros ->. split; reflexivity.
Qed.

Lemma first_char_not_inspected_witness :
  kind (tok (lex (fresh (chars "x") 1))) = TOK_INT /\
  kind (tok (lex (fresh (chars "+") 1))) = TOK_INT /\
  kind (tok (lex (fresh (chars " x1 ") 4))) = TOK_INT.
Proof.
  split; [|split].
  - refine (proj1 (proj2 (proj2 (first_char_not_inspected
              (fresh (chars "x") 1) [] [] 120 [] [] [] _ _ _ _ _)) eq_refl));
      try reflexivity.
    repeat split.
  - refine (proj1 (proj2 (proj2 (first_char_not_inspected
              (fresh (chars "+") 1) [] [] 43 [] [] [] _ _ _ _ _)) eq_refl));
      try reflexivity.
    repeat split.
  - refine (proj1 (first_char_not_inspected
              (fresh (chars " x1 ") 4) [] [32] 120 [49] [32] [] _ _ _ _ _));
      try reflexivity.
    repeat split.
Defined.

(** ** [parse_text] *)

Lemma strncpy_bytes_cons x mem n : forall i,
  strncpy_bytes (x :: mem) (S i) n = strncpy_bytes mem i n.
Proof.
  induction n as [|n IH]; intros i; simpl; [reflexivity|].
  now rewrite IH.
Qed.

Lemma strncpy_bytes_skipn n : forall s mem,
  strncpy_bytes mem s n = strncpy_bytes (skipn s mem) 0 n.
Proof.
  induction s as [|s IH]; intros mem; [reflexivity|].
  destruct mem as [|x mem].
  - destruct n; reflexivity.
  - rewrite strncpy_bytes_cons. simpl. apply IH.
Qed.

(** While the source holds no NUL, [strncpy] copies it byte for byte. *)
Lemma strncpy_bytes_firstn n : forall l,
  List.length (firstn n l) = n ->
  Forall (fun c => c <> 0) (firstn n l) ->
  strncpy_bytes l 0 n = firstn n l.
Proof.
  induction n as [|n IH]; intros l Len NZ; [reflexivity|].
  destruct l as [|x l]; [discriminate|].
  simpl in *. inversion NZ as [|? ? Hx NZ']; subst.
  apply Z.eqb_neq in Hx. rewrite Hx.
  rewrite strncpy_bytes_cons. f_equal. apply IH; auto.
Qed.

Lemma Forall_firstn_of {A} (P : A -> Prop) n : forall l,
  Forall P l -> Forall P (firstn n l).
Proof.
  induction n as [|n IH]; intros l H; simpl; [constructor|].
  destruct H; constructor; auto.
Qed.

(** C3, as the code has it.  With the current token a word of length L and
    no latched error, [parse_text] with a null buffer returns L and writes
    nothing; with a buffer and a capacity [cap < L] it writes the first [cap]
    bytes of the lexeme over the start of the buffer and returns [cap], the
    number of bytes copied.  Either way it advances to the next token. *)
Theorem parse_text_word :
  forall p : parser_t,
    error p = None ->
    kind (tok p) = TOK_TEXT ->
    (forall cap, parse_text p None cap = (len (tok p), lex p, None)) /\
    (forall buf cap,
        (cap < len (tok p))%nat ->
        (cap <= List.length buf)%nat ->
        List.length (lexeme p) = len (tok p) ->
        Forall (fun c => c <> 0) (lexeme p) ->
        parse_text p (Some buf) cap
        = (cap, lex p, Some (firstn cap (lexeme p) ++ skipn cap buf))).
Proof.
  intros p E K. apply have_true in K. split.
  - intros cap. unfold parse_text. rewrite E, K. reflexivity.
  - intros buf cap C _ Len NZ. unfold parse_text. rewrite E, K. simpl.
    apply Nat.ltb_lt in C. rewrite C. apply Nat.ltb_lt in C.
    unfold strncpy. rewrite strncpy_bytes_skipn.
    unfold lexeme in *.
    set (l := skipn (start (tok p)) (src p)) in *.
    assert (F : firstn cap (firstn (len (tok p)) l) = firstn cap l)
      by (rewrite firstn_firstn; f_equal; lia).
    rewrite F. rewrite strncpy_bytes_firstn; [reflexivity| |].
    + rewrite <- F, length_firstn, Len. lia.
    + rewrite <- F. now apply Forall_firstn_of.
Qed.

Lemma parse_text_word_witness :
  parse_text at_word None 0 = (3%nat, lex at_word, None) /\
  parse_text at_word (Some [0; 0]) 2
  = (2%nat, lex at_word, Some (chars "ab")).
Proof.
  destruct (parse_text_word at_word eq_refl eq_refl) as [A B].
  split.
  - apply A.
  - apply (B [0; 0] 2%nat).
    + vm_compute. lia.
    + simpl. lia.
    + reflexivity.
    + vm_compute. repeat constructor; discriminate.
Defined.

(** C3 as stated fails on the word [abc]: with a buffer of capacity 2 the
    result is 2, and with a buffer of capacity 0 it is 0, not the length 3. *)
Lemma parse_text_returns_copied :
  len (tok at_word) = 3%nat /\
  parse_text at_word (Some [0; 0]) 2 = (2%nat, lex at_word, Some (chars "ab")) /\
  parse_text at_word (Some [7]) 0 = (0%nat, lex at_word, Some [7]).
Proof. evaluate. Qed.

(** The tokens [lex] makes are fit for a byte-for-byte copy: the lexeme lies
    in the buffer and holds token characters only, so no NUL. *)
Lemma lex_token_lexeme p pre ws c run post b :
  scanning p pre (ws ++ c :: run ++ post) b ->
  forallb is_blank ws = true ->
  is_tok_char c = true ->
  forallb is_tok_char run = true ->
  stops is_tok_char post ->
  lexeme (lex p) = c :: run.
Proof.
  intros Sc B Tc T St.
  destruct (lex_token p pre ws c run post b Sc B Tc T St)
    as (p' & l & col & L & Sc').
  destruct (lex_same_buffer p) as (_ & S1 & _ & _).
  unfold lexeme. rewrite S1, L. simpl.
  rewrite finished_token_len, finished_token_start. simpl.
  destruct Sc as (_ & Sr & _ & _). rewrite Sr.
  replace (pre ++ (ws ++ c :: run ++ post) ++ b)
    with ((pre ++ ws) ++ (c :: run) ++ post ++ b)
    by (rewrite <- !app_assoc; simpl; rewrite <- !app_assoc; reflexivity).
  rewrite skipn_app, Nat.sub_diag, skipn_all. simpl. f_equal.
  rewrite firstn_app, Nat.sub_diag, firstn_all. simpl. apply app_nil_r.
Qed.

Lemma lex_token_copyable p pre ws c run post b :
  scanning p pre (ws ++ c :: run ++ post) b ->
  forallb is_blank ws = true ->
  is_tok_char c = true ->
  forallb is_tok_char run = true ->
  stops is_tok_char post ->
  List.length (lexeme (lex p)) = len (tok (lex p)) /\
  Forall (fun x => x <> 0) (lexeme (lex p)).
Proof.
  intros Sc B Tc T St.
  rewrite (lex_token_lexeme p pre ws c run post b Sc B Tc T St).
  destruct (lex_token p pre ws c run post b Sc B Tc T St)
    as (p' & l & col & L & _).
  split.
  - rewrite L. simpl. now rewrite finished_token_len.
  - assert (A : forallb is_tok_char (c :: run) = true)
      by (simpl; now rewrite Tc, T).
    apply Forall_forall. intros x In.
    rewrite forallb_forall in A. specialize (A x In).
    intros ->. discriminate.
Qed.

(** ** Buffers of integers *)

Lemma isdigit_bounds c : isdigit c = true <-> 48 <= c <= 57.
Proof.
  unfold isdigit. rewrite andb_true_iff, !Z.leb_le. reflexivity.
Qed.

Lemma isdigit_is_tok_char c : isdigit c = true -> is_tok_char c = true.
Proof.
  unfold is_tok_char, isalnum. intros ->.
  now rewrite orb_true_r.
Qed.

Lemma digits_are_tok_chars l :
  forallb isdigit l = true -> forallb is_tok_char l = true.
Proof.
  induction l as [|d l IH]; simpl; [reflexivity|].
  rewrite !andb_true_iff. intros [D L].
  split; [now apply isdigit_is_tok_char | now apply IH].
Qed.

Lemma not_tok_char_not_digit post : stops is_tok_char post -> stops isdigit post.
Proof.
  destruct post as [|d post]; simpl; [trivial|].
  intros T. destruct (isdigit d) eqn:D; [|reflexivity].
  apply isdigit_is_tok_char in D. congruence.
Qed.

(** Digits keep the automaton in its first state. *)
Lemma classify_digits run : forallb isdigit run = true -> classify run = STATE_INT.
Proof.
  unfold classify. induction run as [|d run IH]; simpl; [reflexivity|].
  rewrite andb_true_iff. intros [D R].
  rewrite D. apply isdigit_bounds in D.
  replace (d =? 46) with false by (symmetry; apply Z.eqb_neq; lia).
  simpl. now apply IH.
Qed.

Lemma digits_value_run ds : forall acc rest,
  forallb isdigit ds = true ->
  stops isdigit rest ->
  digits_value acc (ds ++ rest) = fold_left (fun a d => a * 10 + (d - 48)) ds acc.
Proof.
  induction ds as [|d ds IH]; intros acc rest D St; simpl.
  - destruct rest as [|r rest]; simpl in *; [reflexivity|]. now rewrite St.
  - simpl in D. apply andb_true_iff in D. destruct D as [D1 D2].
    rewrite D1. now apply IH.
Qed.

(** [strtol] reads a literal back as the number it denotes, saturated. *)
Lemma strtol10_literal l rest :
  is_int_literal l = true ->
  stops isdigit rest ->
  strtol10 (l ++ rest) = saturate (literal_value l).
Proof.
  destruct l as [|c ds]; [discriminate|]. intros L St.
  unfold strtol10, literal_value. simpl in L. simpl app.
  assert (Sp : isspace c = false).
  { unfold isspace.
    destruct ((c =? 43) || (c =? 45)) eqn:Sg.
    - apply orb_true_iff in Sg.
      destruct Sg as [Sg|Sg]; apply Z.eqb_eq in Sg; subst; reflexivity.
    - simpl in L. apply andb_true_iff in L. destruct L as [D _].
      apply isdigit_bounds in D.
      apply orb_false_iff. split.
      + apply andb_false_iff. right. apply Z.leb_gt. lia.
      + apply Z.eqb_neq. lia. }
  simpl skip_space. rewrite Sp. unfold scan_sign.
  destruct (c =? 45) eqn:M.
  - rewrite orb_true_r in L. apply andb_true_iff in L. destruct L as [_ D].
    unfold decimal. now rewrite (digits_value_run ds 0 rest D St).
  - destruct (c =? 43) eqn:P; simpl in L.
    + apply andb_true_iff in L. destruct L as [_ D].
      unfold decimal. now rewrite (digits_value_run ds 0 rest D St).
    + unfold decimal.
      now rewrite <- (digits_value_run (c :: ds) 0 rest L St).
Qed.

Lemma saturate_in_range z : INT64_MIN <= z <= INT64_MAX -> saturate z = z.
Proof. unfold saturate. lia. Qed.

(** An [int64_t] survives the trip through the union. *)
Lemma i64_of_bits_of_i64 z :
  INT64_MIN <= z <= INT64_MAX -> i64_of_bits (bits_of_i64 z) = z.
Proof.
  unfold INT64_MIN, INT64_MAX, i64_of_bits, bits_of_i64. intros R.
  destruct (Z_lt_le_dec z 0) as [N|N].
  - assert (H : z mod 2 ^ 64 = z + 2 ^ 64)
      by (symmetry; apply Z.mod_unique with (q := -1); lia).
    rewrite H. destruct (z + 2 ^ 64 <? 2 ^ 63) eqn:C; [|lia].
    apply Z.ltb_lt in C. lia.
  - rewrite Z.mod_small by lia.
    destruct (z <? 2 ^ 63) eqn:C; [reflexivity|].
    apply Z.ltb_ge in C. lia.
Qed.

(** The shape of a literal: a token character, then digits. *)
Lemma int_literal_shape l :
  is_int_literal l = true ->
  exists c run,
    l = c :: run /\ is_tok_char c = true /\ forallb isdigit run = true.
Proof.
  destruct l as [|c ds]; [discriminate|]. simpl. intros L.
  exists c, ds. split; [reflexivity|].
  destruct ((c =? 43) || (c =? 45)) eqn:Sg.
  - apply andb_true_iff in L. destruct L as [_ D]. split; [|exact D].
    apply orb_true_iff in Sg.
    destruct Sg as [Sg|Sg]; apply Z.eqb_eq in Sg; subst; reflexivity.
  - simpl in L. apply andb_true_iff in L. destruct L as [D1 D2].
    split; [now apply isdigit_is_tok_char | exact D2].
Qed.

Lemma finished_token_int t mem run :
  classify run = STATE_INT ->
  finished_token t mem run
  = set_bits64 (set_len (set_kind t TOK_INT) (S (List.length run)))
               (bits_of_i64 (atol mem (start t))).
Proof. intros C. unfold finished_token. now rewrite C. Qed.

(** [lex] on blanks and a valid literal that ends at [post]: the token is an
    integer with the literal's value, and the cursor is past the byte that
    ended it. *)
Lemma lex_literal p pre ws lit post :
  scanning p pre (ws ++ lit ++ post) [] ->
  forallb is_blank ws = true ->
  valid_literal lit ->
  stops is_tok_char post ->
  kind (tok (lex p)) = TOK_INT /\
  view_of (tok (lex p)) = VInt (literal_value lit) /\
  scanning (lex p) (pre ++ ws ++ lit ++ firstn 1 post) (skipn 1 post) [].
Proof.
  intros Sc B [L R] St.
  destruct (int_literal_shape lit L) as (c & run & -> & Tc & D).
  pose proof (digits_are_tok_chars run D) as T.
  destruct (lex_token p pre ws c run post [] Sc B Tc T St)
    as (p' & l & col & Lx & Sc').
  rewrite (finished_token_int _ _ _ (classify_digits run D)) in Lx.
  assert (V : atol (src p) (List.length (pre ++ ws))
              = literal_value (c :: run)).
  { destruct Sc as (_ & Sr & _ & _). unfold atol. rewrite Sr.
    replace (pre ++ (ws ++ (c :: run) ++ post) ++ [])
      with ((pre ++ ws) ++ (c :: run) ++ post)
      by (rewrite app_nil_r, <- !app_assoc; reflexivity).
    rewrite skipn_app, Nat.sub_diag, skipn_all. simpl.
    change (c :: run ++ post) with ((c :: run) ++ post).
    rewrite (strtol10_literal (c :: run) post L (not_tok_char_not_digit post St)).
    now apply saturate_in_range. }
  rewrite Lx. simpl. split; [reflexivity|]. split.
  - unfold view_of, i64. simpl. rewrite V. f_equal.
    now apply i64_of_bits_of_i64.
  - exact Sc'.
Qed.

Lemma blanks_stop ws post :
  forallb is_blank ws = true -> ws <> [] -> stops is_tok_char (ws ++ post).
Proof.
  destruct ws as [|w ws]; [congruence|]. simpl.
  rewrite andb_true_iff. intros [W _] _. now apply is_blank_not_tok.
Qed.

Lemma trail_stops trail :
  forallb is_blank trail = true -> stops is_tok_char trail.
Proof.
  destruct trail as [|w ws]; simpl; [trivial|].
  rewrite andb_true_iff. intros [W _]. now apply is_blank_not_tok.
Qed.

Lemma blanks_tail ws : forallb is_blank ws = true -> forallb is_blank (tl ws) = true.
Proof.
  destruct ws as [|w ws]; simpl; [trivial|].
  rewrite andb_true_iff. now intros [_ W].
Qed.

(** The tokens from a cursor that stands before blanks, a literal and the
    rest of a buffer of literals. *)
Lemma tokens_literals rest :
  forall p pre ws lit trail fuel,
    scanning p pre (ws ++ lit ++ spaced rest trail) [] ->
    forallb is_blank ws = true ->
    valid_literal lit ->
    Forall item_ok rest ->
    Forall (fun it => fst it <> []) rest ->
    forallb is_blank trail = true ->
    (S (List.length rest) < fuel)%nat ->
    tokens fuel (lex p)
    = VInt (literal_value lit)
        :: map (fun it => VInt (literal_value (snd it))) rest ++ [VEof].
Proof.
  induction rest as [|[ws1 lit1] rest IH];
    intros p pre ws lit trail fuel Sc B V Ok Sep Tr F.
  - simpl in Sc.
    destruct (lex_literal p pre ws lit trail Sc B V (trail_stops trail Tr))
      as (K & Vw & Sc').
    destruct fuel as [|[|fuel]]; try (simpl in F; lia).
    simpl. rewrite K, Vw. f_equal.
    assert (Bt : forallb is_blank (skipn 1 trail) = true)
      by (apply (blanks_tail trail Tr)).
    rewrite (lex_eof _ _ _ _ Sc' Bt).
    unfold view_of. rewrite (lex_eof _ _ _ _ Sc' Bt). reflexivity.
  - simpl in Sc.
    inversion Ok as [|? ? [B1 V1] Ok']; subst.
    inversion Sep as [|? ? N1 Sep']; subst. simpl in B1, V1, N1.
    destruct ws1 as [|w ws1]; [congruence|].
    assert (St : stops is_tok_char ((w :: ws1) ++ lit1 ++ spaced rest trail))
      by (apply blanks_stop; [exact B1 | discriminate]).
    destruct (lex_literal p pre ws lit _ Sc B V St) as (K & Vw & Sc').
    destruct fuel as [|fuel]; [lia|].
    simpl tokens. rewrite K, Vw. simpl map. simpl app. f_equal.
    simpl in Sc'.
    apply (IH (lex p) (pre ++ ws ++ lit ++ [w]) ws1 lit1 trail fuel); auto.
    + apply (blanks_tail _ B1).
    + simpl in F. lia.
Qed.

(** C8.  For every list of N valid decimal integer literals (an optional
    sign and digits, denoting a 64-bit integer), each written after blanks
    (space, tab, carriage return, newline; at least one between two
    literals), lexing the buffer they form yields N integer tokens, in the
    order of the source and with the values of the literals, and then the
    end-of-file token. *)
Theorem tokenize_integers :
  forall (items : list (list Z * list Z)) (trail : list Z) (fuel : nat),
    Forall item_ok items ->
    separated items ->
    forallb is_blank trail = true ->
    (S (List.length items) <= fuel)%nat ->
    tokenize fuel (spaced items trail)
    = map (fun it => VInt (literal_value (snd it))) items ++ [VEof].
Proof.
  intros items trail fuel Ok Sep Tr F. unfold tokenize.
  set (mem := spaced items trail).
  assert (Sc : scanning (fresh mem (List.length mem)) [] mem []).
  { repeat split; simpl. now rewrite app_nil_r. }
  destruct items as [|[ws lit] rest].
  - simpl in mem. destruct fuel as [|fuel]; [simpl in F; lia|].
    simpl. rewrite (lex_eof _ _ _ _ Sc Tr).
    unfold view_of. rewrite (lex_eof _ _ _ _ Sc Tr). reflexivity.
  - inversion Ok as [|? ? [B V] Ok']; subst. simpl in B, V.
    apply (tokens_literals rest _ [] ws lit trail fuel); auto.
Qed.

Lemma tokenize_integers_witness :
  tokenize 4 (chars "12 -7 +300")
  = [VInt 12; VInt (-7); VInt 300; VEof].
Proof.
  apply (tokenize_integers
           [([], chars "12"); (chars " ", chars "-7"); (chars " ", chars "+300")]
           [] 4).
  - repeat constructor; vm_compute; congruence.
  - repeat constructor; vm_compute; congruence.
  - reflexivity.
  - simpl. lia.
Defined.

(** * Further properties *)

(** ** The buffer and the cursor *)

Lemma kept_refl p : (ptr p <= end_ p)%nat -> kept p p.
Proof. intros B. repeat split; auto. Qed.

Lemma kept_trans p q r : kept p q -> kept q r -> kept p r.
Proof.
  intros (A1 & A2 & A3 & A4) (B1 & B2 & B3 & B4).
  repeat split; try congruence; lia.
Qed.

Lemma advance_kept p : (ptr p <= end_ p)%nat -> kept p (snd (advance p)).
Proof.
  intros B. unfold advance. destruct (error p); [now apply kept_refl|].
  destruct (ptr p =? end_ p)%nat eqn:H; [now apply kept_refl|].
  apply Nat.eqb_neq in H.
  destruct (deref p (S (ptr p)) =? 10); repeat split; simpl; lia.
Qed.

Lemma lex_kept p : (ptr p <= end_ p)%nat -> kept p (lex p).
Proof.
  intros B. destruct (lex_same_buffer p) as (O & Sr & En & _).
  repeat split; auto; [|rewrite <- En; now apply lex_in_bounds].
  unfold lex. destruct (error p) eqn:E; [lia|].
  destruct (skip_whitespace_exits p E B) as [_ B1].
  destruct (skip_whitespace_same_token p) as [(_ & _ & En1 & _) _].
  set (p1 := skip_whitespace p) in *.
  set (p2 := set_tok p1 _).
  assert (P2 : ptr p2 = ptr p1) by reflexivity.
  assert (E2 : end_ p2 = end_ p1) by reflexivity.
  destruct (peek p2 =? EOF); [simpl; lia|].
  destruct (is_tok_char (peek p2)); [|simpl; lia].
  unfold make_token.
  destruct (advance_kept p2) as (_ & _ & En3 & B3); [lia|].
  set (p3 := snd (advance p2)) in *.
  pose proof (make_token_loop_bounds (end_ p3 - ptr p3) p3 1 STATE_INT) as L.
  destruct (make_token_loop _ p3 1%nat STATE_INT) as [[p4 n] st].
  change (ptr p <= ptr p4)%nat. simpl in L. lia.
Qed.

Lemma set_error_kept p e : (ptr p <= end_ p)%nat -> kept p (set_error p e).
Proof. intros B. repeat split; simpl; lia. Qed.

Lemma parse_fail_kept p msg : (ptr p <= end_ p)%nat -> kept p (parse_fail p msg).
Proof.
  intros B. unfold parse_fail.
  destruct (error p); [now apply kept_refl | now apply set_error_kept].
Qed.

Lemma syntax_error_kept p k : (ptr p <= end_ p)%nat -> kept p (syntax_error p k).
Proof.
  intros B. unfold syntax_error.
  destruct (error p); [now apply kept_refl | now apply parse_fail_kept].
Qed.

Lemma kept_in_bounds p q : kept p q -> (ptr q <= end_ q)%nat.
Proof. intros (_ & _ & En & B). rewrite En. lia. Qed.

Lemma run_kept o p : (ptr p <= end_ p)%nat -> kept p (run o p).
Proof.
  intros B. destruct o; simpl.
  - now apply parse_fail_kept.
  - now apply lex_kept.
  - now apply kept_refl.
  - unfold match_. destruct (negb (have p k)); simpl;
      [now apply kept_refl | now apply lex_kept].
  - unfold expect. destruct (error p); [now apply kept_refl|].
    destruct (negb (have p k)); [now apply syntax_error_kept | now apply lex_kept].
  - now apply syntax_error_kept.
  - unfold parse_int. destruct (error p); simpl; [now apply kept_refl|].
    destruct (negb (have p TOK_INT)); [|now apply lex_kept].
    pose proof (syntax_error_kept p TOK_INT B) as K.
    eapply kept_trans; [exact K|]. apply lex_kept.
    now apply kept_in_bounds with p.
  - unfold parse_float. destruct (error p); simpl; [now apply kept_refl|].
    destruct (negb (have p TOK_INT) && negb (have p TOK_FLOAT)); simpl;
      [now apply syntax_error_kept | now apply lex_kept].
  - unfold parse_text. destruct (error p); simpl; [now apply kept_refl|].
    destruct (negb (have p TOK_TEXT)); simpl; [now apply syntax_error_kept|].
    destruct out; simpl; now apply lex_kept.
Qed.

(** X1.  Whatever sequence of operations runs on a parser whose cursor is
    within its span, the source bytes, the bounds of the span and the
    ownership flag stay as they were, and the cursor only moves forward and
    never past the end. *)
Theorem operations_keep_buffer :
  forall (os : list op) (p : parser_t),
    (ptr p <= end_ p)%nat ->
    owns_src (run_all os p) = owns_src p /\
    src (run_all os p) = src p /\
    end_ (run_all os p) = end_ p /\
    (ptr p <= ptr (run_all os p) <= end_ p)%nat.
Proof.
  induction os as [|o os IH]; intros p B; [now apply kept_refl|].
  simpl. pose proof (run_kept o p B) as K.
  apply kept_trans with (run o p); [exact K|].
  apply IH. now apply kept_in_bounds with p.
Qed.

Lemma operations_keep_buffer_witness :
  src (run_all [Op_parse_int; Op_parse_text (Some [0; 0]) 2; Op_parse_float;
                Op_lex] (lex (fresh (chars "12 abc 1.5") 10)))
  = chars "12 abc 1.5".
Proof.
  refine (proj1 (proj2 (operations_keep_buffer _
            (lex (fresh (chars "12 abc 1.5") 10)) _))).
  vm_compute. lia.
Defined.

(** ** Tokens the scanner cannot get past *)

Lemma skip_whitespace_loop_stopped fuel p :
  is_blank (peek p) || (peek p =? 35) = false ->
  skip_whitespace_loop fuel p = p.
Proof.
  intros H. apply orb_false_iff in H. destruct H as [H1 H2].
  unfold is_blank in H1. destruct fuel; simpl; now rewrite H1, H2.
Qed.

Lemma make_token_kind p :
  kind (tok (make_token p)) <> TOK_EOF /\
  kind (tok (make_token p)) <> TOK_INVALID.
Proof.
  unfold make_token.
  destruct (make_token_loop _ _ _ _) as [[p2 n] st].
  destruct st; simpl; split; discriminate.
Qed.

(** [lex] on a parser that stands, blanks and comments skipped, in front of
    the end of the input or of a byte that starts no token. *)
Lemma lex_at_rest p k :
  error p = None ->
  is_blank (peek p) || (peek p =? 35) = false ->
  start (tok p) = ptr p ->
  tok_line (tok p) = line p ->
  tok_column (tok p) = column p ->
  kind (tok p) = k ->
  (if peek p =? EOF then k = TOK_EOF
   else is_tok_char (peek p) = false /\ k = TOK_INVALID) ->
  lex p = p.
Proof.
  intros E W S1 S2 S3 K H. unfold lex. rewrite E.
  unfold skip_whitespace. rewrite (skip_whitespace_loop_stopped _ p W).
  destruct p as [o s e q l c [tk ts tl tln tc tb] er]. simpl in *. subst.
  unfold peek, deref in *. simpl in *.
  destruct (q =? e)%nat; simpl in *.
  - subst. reflexivity.
  - destruct (nth q s 0 =? EOF) eqn:D.
    + subst. reflexivity.
    + destruct H as [T ->]. rewrite T. reflexivity.
Qed.

(** X2.  Once [lex] has made the end-of-file token or an invalid token,
    calling it again changes nothing: the same token stays current and the
    cursor does not move. *)
Theorem lex_stuck :
  forall p : parser_t,
    (ptr p <= end_ p)%nat ->
    kind (tok (lex p)) = TOK_EOF \/ kind (tok (lex p)) = TOK_INVALID ->
    lex (lex p) = lex p.
Proof.
  intros p B K. destruct (error p) eqn:E.
  - rewrite (lex_failed p s E). now apply lex_failed with s.
  - destruct (skip_whitespace_exits p E B) as [W _].
    destruct (skip_whitespace_same_token p) as [(_ & _ & _ & E1) _].
    rewrite E in E1.
    set (p1 := skip_whitespace p) in *.
    set (p2 := set_tok p1 (set_origin (tok p1) (ptr p1) (line p1) (column p1))).
    assert (L : lex p
                = if peek p2 =? EOF then set_tok p2 (set_kind (tok p2) TOK_EOF)
                  else if is_tok_char (peek p2) then make_token p2
                       else set_tok p2 (set_kind (tok p2) TOK_INVALID))
      by (unfold lex; rewrite E; reflexivity).
    rewrite L in *. clear L.
    assert (P : peek p2 = peek p1) by reflexivity.
    destruct (peek p2 =? EOF) eqn:D.
    + apply (lex_at_rest _ TOK_EOF); try reflexivity; try assumption.
      change (peek (set_tok p2 (set_kind (tok p2) TOK_EOF))) with (peek p2).
      now rewrite D.
    + destruct (is_tok_char (peek p2)) eqn:T.
      * destruct (make_token_kind p2) as [N1 N2].
        destruct K as [K|K]; contradiction.
      * apply (lex_at_rest _ TOK_INVALID); try reflexivity; try assumption.
        change (peek (set_tok p2 (set_kind (tok p2) TOK_INVALID))) with (peek p2).
        rewrite D. now split.
Qed.

Lemma lex_stuck_witness :
  lex (lex (fresh (chars " # done") 7)) = lex (fresh (chars " # done") 7) /\
  lex (lex (fresh (chars "?") 1)) = lex (fresh (chars "?") 1).
Proof.
  split.
  - apply lex_stuck; [vm_compute; lia|]. left. reflexivity.
  - apply lex_stuck; [vm_compute; lia|]. right. reflexivity.
Defined.

(** ** The byte that ends a lexeme *)

(** X3.  A lexeme (a token character [c] and the token characters [run])
    that is followed by a byte [d] which is no token character is lexed with
    [d] consumed too: the token is [c :: run], and the cursor is left after
    [d], two bytes or more past the token's start.  So whatever [d] is, a
    bracket or the [#] of a comment, the next call of [lex] never sees it.
    At the end of the span the cursor is left on the end. *)
Theorem terminator_consumed :
  forall p pre ws c run post b,
    scanning p pre (ws ++ c :: run ++ post) b ->
    forallb is_blank ws = true ->
    is_tok_char c = true ->
    forallb is_tok_char run = true ->
    stops is_tok_char post ->
    lexeme (lex p) = c :: run /\
    start (tok (lex p)) = List.length (pre ++ ws) /\
    ptr (lex p)
    = (start (tok (lex p)) + len (tok (lex p)) + List.length (firstn 1 post))%nat /\
    scanning (lex p) (pre ++ ws ++ c :: run ++ firstn 1 post) (skipn 1 post) b.
Proof.
  intros p pre ws c run post b Sc B Tc T St.
  pose proof (lex_token_lexeme p pre ws c run post b Sc B Tc T St) as Lx.
  destruct (lex_token p pre ws c run post b Sc B Tc T St)
    as (p' & l & col & L & Sc').
  split; [exact Lx|].
  assert (Sc2 : scanning (lex p) (pre ++ ws ++ c :: run ++ firstn 1 post)
                         (skipn 1 post) b) by (rewrite L; exact Sc').
  assert (St' : start (tok (lex p)) = List.length (pre ++ ws))
    by (rewrite L; simpl; now rewrite finished_token_start).
  assert (Ln : len (tok (lex p)) = S (List.length run))
    by (rewrite L; simpl; now rewrite finished_token_len).
  split; [exact St'|]. split; [|exact Sc2].
  destruct Sc2 as (_ & _ & P & _). rewrite P, St', Ln.
  rewrite !length_app. simpl. rewrite !length_app. lia.
Qed.

Lemma terminator_consumed_witness :
  ptr (lex (fresh (chars "12#34") 5)) = 3%nat /\
  tokenize 3 (chars "12#34") = [VInt 12; VInt 34; VEof].
Proof.
  split; [|reflexivity].
  assert (Sc : scanning (fresh (chars "12#34") 5) []
                 ([] ++ 49 :: [50] ++ chars "#34") []) by (repeat split).
  destruct (terminator_consumed _ [] [] 49 [50] (chars "#34") [] Sc
              eq_refl eq_refl eq_refl eq_refl) as (_ & _ & P & _).
  exact P.
Defined.

(** ** What the automaton accepts *)

Lemma classify_text l : fold_left classify_step l STATE_TEXT = STATE_TEXT.
Proof. induction l as [|c l IH]; simpl; auto. Qed.

Lemma classify_exp l :
  fold_left classify_step l STATE_EXP
  = if forallb isdigit l then STATE_EXP else STATE_TEXT.
Proof.
  induction l as [|c l IH]; simpl; [reflexivity|].
  destruct (isdigit c); simpl; [exact IH | apply classify_text].
Qed.

Lemma isdigit_not_letter c :
  isdigit c = true -> (c =? 69) || (c =? 101) = false /\ (c =? 46) = false.
Proof.
  intros D. apply isdigit_bounds in D. split.
  - apply orb_false_iff. split; apply Z.eqb_neq; lia.
  - apply Z.eqb_neq. lia.
Qed.

Lemma e_not_digit c : (c =? 69) || (c =? 101) = true -> isdigit c = false.
Proof.
  intros H. apply orb_true_iff in H.
  destruct H as [H|H]; apply Z.eqb_eq in H; subst; reflexivity.
Qed.

Lemma classify_float l :
  kind_of_state (fold_left classify_step l STATE_FLOAT)
  = if exponent_shape (drop_digits l) then TOK_FLOAT else TOK_TEXT.
Proof.
  induction l as [|c l IH]; [reflexivity|]. simpl.
  destruct ((c =? 69) || (c =? 101)) eqn:Ex.
  - rewrite (e_not_digit c Ex). simpl. rewrite Ex. simpl.
    destruct l as [|s l]; [reflexivity|]. simpl.
    destruct ((s =? 43) || (s =? 45)); simpl.
    + rewrite classify_exp. now destruct (forallb isdigit l).
    + now rewrite classify_text.
  - destruct (isdigit c) eqn:D; simpl; [exact IH|].
    rewrite classify_text. simpl. rewrite Ex. simpl.
    now destruct l as [|s l].
Qed.

Lemma classify_by_shape run :
  kind_of_state (classify run) = kind_by_shape run.
Proof.
  unfold classify, kind_by_shape, float_shape.
  induction run as [|c run IH]; [reflexivity|]. simpl.
  destruct (c =? 46) eqn:Pt.
  - apply Z.eqb_eq in Pt. subst c. simpl. apply classify_float.
  - destruct (isdigit c) eqn:D; simpl; [exact IH|].
    rewrite classify_text, Pt. reflexivity.
Qed.

(** X4.  The kind [lex] gives a lexeme follows from the characters [run]
    after its first one: an integer when they are all digits; a float when
    they are digits, a point, digits and then nothing or an [e] or [E] with a
    sign and digits; a word otherwise.  An exponent without a sign or
    without the point before it makes a word. *)
Theorem lex_kind_by_shape :
  forall p pre ws c run post b,
    scanning p pre (ws ++ c :: run ++ post) b ->
    forallb is_blank ws = true ->
    is_tok_char c = true ->
    forallb is_tok_char run = true ->
    stops is_tok_char post ->
    kind (tok (lex p)) = kind_by_shape run.
Proof.
  intros p pre ws c run post b Sc B Tc T St.
  destruct (lex_token p pre ws c run post b Sc B Tc T St)
    as (p' & l & col & L & _).
  rewrite L. simpl. rewrite finished_token_kind. apply classify_by_shape.
Qed.

Lemma lex_kind_by_shape_witness :
  kind (tok (lex (fresh (chars "1.5e3") 5))) = TOK_TEXT /\
  kind (tok (lex (fresh (chars "1e-3") 4))) = TOK_TEXT /\
  kind (tok (lex (fresh (chars "1.5e-") 5))) = TOK_FLOAT.
Proof.
  split; [|split].
  - refine (lex_kind_by_shape (fresh (chars "1.5e3") 5) [] [] 49
              (chars ".5e3") [] [] _ _ _ _ _); try reflexivity.
    repeat split.
  - refine (lex_kind_by_shape (fresh (chars "1e-3") 4) [] [] 49
              (chars "e-3") [] [] _ _ _ _ _); try reflexivity.
    repeat split.
  - refine (lex_kind_by_shape (fresh (chars "1.5e-") 5) [] [] 49
              (chars ".5e-") [] [] _ _ _ _ _); try reflexivity.
    repeat split.
Defined.

(** ** Input of blanks and comments *)

Lemma skip_comment_body l :
  forall fuel p pre b,
    scanning p pre l b ->
    blank_text true l = true ->
    (List.length l <= fuel)%nat ->
    exists l1 l2,
      l = l1 ++ l2 /\
      scanning (skip_comment fuel p) (pre ++ l1) l2 b /\
      blank_text false l2 = true.
Proof.
  induction l as [|c r IH]; intros fuel p pre b Sc H F.
  - exists [], [].
    assert (R : skip_comment fuel p = p)
      by (destruct fuel; simpl; rewrite (scanning_peek_nil _ _ _ Sc); reflexivity).
    rewrite R, (app_nil_r pre). split; [reflexivity|].
    split; [exact Sc | reflexivity].
  - pose proof (scanning_peek_cons _ _ _ _ _ Sc) as K. simpl in H.
    destruct (c =? 10) eqn:N.
    + exists [], (c :: r).
      assert (R : skip_comment fuel p = p)
        by (destruct fuel; simpl; rewrite K, N; reflexivity).
      rewrite R, (app_nil_r pre). split; [reflexivity|]. split; [exact Sc|].
      apply Z.eqb_eq in N. subst c. exact H.
    + apply andb_true_iff in H. destruct H as [H1 H2].
      destruct fuel as [|fuel]; [simpl in F; lia|].
      destruct (scanning_advance_cons _ _ _ _ _ Sc) as [_ Sc'].
      destruct (IH fuel (snd (advance p)) (pre ++ [c]) b Sc' H2)
        as (l1 & l2 & -> & Sc'' & H3); [simpl in F; lia|].
      exists (c :: l1), l2. split; [reflexivity|]. split; [|exact H3].
      simpl skip_comment. rewrite K, N, H1. simpl.
      rewrite <- app_assoc in Sc''. exact Sc''.
Qed.

Lemma skip_whitespace_loop_blank_text fuel :
  forall l p pre b,
    (List.length l <= fuel)%nat ->
    scanning p pre l b ->
    blank_text false l = true ->
    scanning (skip_whitespace_loop fuel p) (pre ++ l) [] b.
Proof.
  induction fuel as [|n IH]; intros l p pre b F Sc H.
  - destruct l; [|simpl in F; lia]. rewrite app_nil_r.
    simpl. now rewrite (scanning_peek_nil _ _ _ Sc).
  - destruct l as [|c r].
    + rewrite app_nil_r. simpl. now rewrite (scanning_peek_nil _ _ _ Sc).
    + pose proof (scanning_peek_cons _ _ _ _ _ Sc) as K.
      destruct (scanning_advance_cons _ _ _ _ _ Sc) as [_ Sc'].
      simpl in H, F. simpl skip_whitespace_loop. rewrite K.
      fold (is_blank c). destruct (is_blank c) eqn:Bc.
      * replace (pre ++ c :: r) with ((pre ++ [c]) ++ r)
          by (rewrite <- app_assoc; reflexivity).
        apply IH; auto. lia.
      * apply andb_true_iff in H. destruct H as [H1 H2]. rewrite H1.
        assert (L : (end_ p - ptr p = S (List.length r))%nat).
        { destruct Sc as (_ & _ & P & En). rewrite P, En, length_app. simpl. lia. }
        rewrite L. simpl skip_comment. rewrite K.
        apply Z.eqb_eq in H1. subst c. simpl.
        destruct (skip_comment_body r (List.length r) (snd (advance p))
                    (pre ++ [35]) b Sc' H2 (Nat.le_refl _))
          as (l1 & l2 & -> & Sc'' & H3).
        replace (pre ++ 35 :: l1 ++ l2) with (((pre ++ [35]) ++ l1) ++ l2)
          by (rewrite <- !app_assoc; reflexivity).
        apply IH; auto. rewrite length_app in F. lia.
Qed.

(** X5.  On a parser without error whose remaining input holds nothing but
    blanks and comments, [lex] makes the end-of-file token, latches no error
    and leaves the cursor on the end of the span. *)
Theorem lex_blank_text :
  forall p pre l b,
    scanning p pre l b ->
    blank_text false l = true ->
    kind (tok (lex p)) = TOK_EOF /\
    error (lex p) = None /\
    ptr (lex p) = end_ p.
Proof.
  intros p pre l b Sc H.
  assert (E : error p = None) by apply Sc.
  assert (F : (List.length l <= end_ p - ptr p)%nat).
  { destruct Sc as (_ & _ & P & N). rewrite P, N, !length_app. lia. }
  pose proof (skip_whitespace_loop_blank_text _ l p pre b F Sc H) as Sc1.
  fold (skip_whitespace p) in Sc1.
  assert (En : end_ p = List.length (pre ++ l)).
  { destruct Sc as (_ & _ & _ & N). exact N. }
  rewrite lex_error, E.
  unfold lex. rewrite E.
  set (p1 := skip_whitespace p) in *.
  set (p2 := set_tok p1 _).
  assert (K : peek p2 = EOF)
    by (apply (scanning_peek_nil p2 (pre ++ l) b); exact Sc1).
  rewrite K. simpl. repeat split.
  destruct Sc1 as (_ & _ & P & _). rewrite P, En. reflexivity.
Qed.

Lemma lex_blank_text_witness :
  kind (tok (lex (fresh (chars "  # one" ++ 10 :: chars "# two") 13))) = TOK_EOF.
Proof.
  refine (proj1 (lex_blank_text
                   (fresh (chars "  # one" ++ 10 :: chars "# two") 13) []
                   (chars "  # one" ++ 10 :: chars "# two") [] _ _)).
  - repeat split.
  - reflexivity.
Defined.

(** X6.  A byte of the input whose [char] value equals [EOF] (the byte 0xFF
    where [char] is signed) is taken for the end of the input: reached over
    blanks, it makes [lex] yield the end-of-file token with the cursor still
    on that byte, before the end of the span. *)
Theorem lex_eof_byte :
  forall p pre ws post b,
    scanning p pre (ws ++ EOF :: post) b ->
    forallb is_blank ws = true ->
    kind (tok (lex p)) = TOK_EOF /\
    ptr (lex p) = List.length (pre ++ ws) /\
    (ptr (lex p) < end_ (lex p))%nat.
Proof.
  intros p pre ws post b Sc B.
  assert (E : error p = None) by apply Sc.
  assert (F : (List.length ws <= end_ p - ptr p)%nat).
  { destruct Sc as (_ & _ & P & N). rewrite P, N, !length_app. lia. }
  assert (St : stops (fun d => is_blank d || (d =? 35)) (EOF :: post))
    by reflexivity.
  pose proof (skip_whitespace_loop_blanks ws _ p pre (EOF :: post) b Sc B St F)
    as Sc1.
  fold (skip_whitespace p) in Sc1.
  destruct (lex_same_buffer p) as (_ & _ & En & _). rewrite En.
  unfold lex. rewrite E.
  set (p1 := skip_whitespace p) in *.
  set (p2 := set_tok p1 _).
  assert (K : peek p2 = EOF)
    by (apply (scanning_peek_cons p2 (pre ++ ws) EOF post b); exact Sc1).
  rewrite K. simpl.
  destruct Sc1 as (_ & _ & P & _).
  destruct Sc as (_ & _ & _ & N).
  rewrite P, N, !length_app. simpl. repeat split. lia.
Qed.

Lemma lex_eof_byte_witness :
  kind (tok (lex (fresh [32; -1; 49; 50] 4))) = TOK_EOF /\
  ptr (lex (fresh [32; -1; 49; 50] 4)) = 1%nat.
Proof.
  assert (Sc : scanning (fresh [32; -1; 49; 50] 4) [] ([32] ++ EOF :: [49; 50]) [])
    by (repeat split).
  destruct (lex_eof_byte _ [] [32] [49; 50] [] Sc eq_refl) as (A & B & _).
  split; [exact A | exact B].
Defined.

(** ** The value of an integer token *)

Lemma strtol10_in_range s : INT64_MIN <= strtol10 s <= INT64_MAX.
Proof.
  unfold strtol10. destruct (scan_sign (skip_space s)) as [neg s'].
  unfold saturate, INT64_MIN, INT64_MAX. lia.
Qed.

(** A lexeme whose characters after the first are digits is an integer token;
    its value is what [atol] makes of the memory from the token's start. *)
Lemma lex_int_value p pre ws c run post b :
  scanning p pre (ws ++ c :: run ++ post) b ->
  forallb is_blank ws = true ->
  is_tok_char c = true ->
  forallb isdigit run = true ->
  stops is_tok_char post ->
  kind (tok (lex p)) = TOK_INT /\
  len (tok (lex p)) = S (List.length run) /\
  view_of (tok (lex p)) = VInt (strtol10 (c :: run ++ post ++ b)).
Proof.
  intros Sc B Tc D St.
  pose proof (digits_are_tok_chars run D) as T.
  destruct (lex_token p pre ws c run post b Sc B Tc T St)
    as (p' & l & col & Lx & _).
  rewrite (finished_token_int _ _ _ (classify_digits run D)) in Lx.
  assert (V : atol (src p) (List.length (pre ++ ws))
              = strtol10 (c :: run ++ post ++ b)).
  { destruct Sc as (_ & Sr & _ & _). unfold atol. rewrite Sr.
    replace (pre ++ (ws ++ c :: run ++ post) ++ b)
      with ((pre ++ ws) ++ c :: run ++ post ++ b)
      by (rewrite <- !app_assoc; simpl; rewrite <- !app_assoc; reflexivity).
    now rewrite skipn_app, Nat.sub_diag, skipn_all. }
  rewrite Lx. simpl. split; [reflexivity|]. split; [reflexivity|].
  unfold view_of, i64. simpl. rewrite V. f_equal.
  apply i64_of_bits_of_i64. apply strtol10_in_range.
Qed.

Lemma tok_char_not_space c : is_tok_char c = true -> isspace c = false.
Proof.
  unfold is_tok_char, isalnum, isalpha, isdigit, isspace. intros T.
  destruct (((9 <=? c) && (c <=? 13)) || (c =? 32)) eqn:Sp; [|reflexivity].
  exfalso.
  rewrite ?orb_true_iff, ?andb_true_iff, ?Z.leb_le, ?Z.eqb_eq in *. lia.
Qed.

(** X7.  A lexeme that starts with a token character which is neither a digit
    nor a sign (a letter or a point) and goes on with digits only is an
    integer token, and its value is 0. *)
Theorem lex_letter_then_digits :
  forall p pre ws c run post b,
    scanning p pre (ws ++ c :: run ++ post) b ->
    forallb is_blank ws = true ->
    is_tok_char c = true ->
    isdigit c = false ->
    (c =? 43) || (c =? 45) = false ->
    forallb isdigit run = true ->
    stops is_tok_char post ->
    view_of (tok (lex p)) = VInt 0.
Proof.
  intros p pre ws c run post b Sc B Tc Nd Ns D St.
  destruct (lex_int_value p pre ws c run post b Sc B Tc D St) as (_ & _ & V).
  rewrite V. f_equal.
  unfold strtol10. simpl skip_space. rewrite (tok_char_not_space c Tc).
  apply orb_false_iff in Ns. destruct Ns as [N1 N2].
  unfold scan_sign. rewrite N2, N1. simpl. rewrite Nd. reflexivity.
Qed.

Lemma lex_letter_then_digits_witness :
  view_of (tok (lex (fresh (chars "x12 .5") 6))) = VInt 0 /\
  view_of (tok (lex (lex (fresh (chars "x12 .5") 6)))) = VInt 0.
Proof.
  split.
  - refine (lex_letter_then_digits (fresh (chars "x12 .5") 6) [] [] 120
              (chars "12") (chars " .5") [] _ _ _ _ _ _ _); try reflexivity.
    repeat split.
  - refine (lex_letter_then_digits (lex (fresh (chars "x12 .5") 6))
              (chars "x12 ") [] 46 (chars "5") [] [] _ _ _ _ _ _ _);
      try reflexivity.
    repeat split.
Defined.

(** X8.  A well formed integer literal of any size, ended by a byte that is
    no digit, is an integer token whose value is the number it denotes
    saturated to the range of [int64_t]: a literal above 2^63 - 1 gives
    2^63 - 1 and one below -2^63 gives -2^63. *)
Theorem lex_literal_saturates :
  forall p pre ws lit post b,
    scanning p pre (ws ++ lit ++ post) b ->
    forallb is_blank ws = true ->
    is_int_literal lit = true ->
    stops is_tok_char post ->
    stops isdigit (post ++ b) ->
    kind (tok (lex p)) = TOK_INT /\
    view_of (tok (lex p))
    = VInt (Z.max INT64_MIN (Z.min INT64_MAX (literal_value lit))).
Proof.
  intros p pre ws lit post b Sc B L St Sd.
  destruct (int_literal_shape lit L) as (c & run & -> & Tc & D).
  destruct (lex_int_value p pre ws c run post b Sc B Tc D St) as (K & _ & V).
  split; [exact K|]. rewrite V. f_equal.
  change (c :: run ++ post ++ b) with ((c :: run) ++ post ++ b).
  now rewrite (strtol10_literal (c :: run) (post ++ b) L Sd).
Qed.

Lemma lex_literal_saturates_witness :
  view_of (tok (lex (fresh (chars "99999999999999999999") 20)))
  = VInt 9223372036854775807 /\
  view_of (tok (lex (fresh (chars "-99999999999999999999") 21)))
  = VInt (-9223372036854775808).
Proof.
  split.
  - refine (proj2 (lex_literal_saturates
              (fresh (chars "99999999999999999999") 20) [] []
              (chars "99999999999999999999") [] [] _ _ _ _ _));
      try reflexivity.
    repeat split.
  - refine (proj2 (lex_literal_saturates
              (fresh (chars "-99999999999999999999") 21) [] []
              (chars "-99999999999999999999") [] [] _ _ _ _ _));
      try reflexivity.
    repeat split.
Defined.

Lemma int_literal_more_digits lit ds :
  is_int_literal lit = true ->
  forallb isdigit ds = true ->
  is_int_literal (lit ++ ds) = true.
Proof.
  destruct lit as [|c r]; [discriminate|]. simpl. intros L D.
  destruct ((c =? 43) || (c =? 45)).
  - apply andb_true_iff in L. destruct L as [N R].
    rewrite forallb_app, R, D, length_app.
    destruct r; [discriminate|reflexivity].
  - simpl in L. apply andb_true_iff in L. destruct L as [C R].
    simpl. now rewrite C, forallb_app, R, D.
Qed.

(** X9.  The value of an integer token is not confined to the span: when the
    span ends inside a run of digits, the token has the length of the part
    within the span, but its value is read from the digits on both sides of
    the end. *)
Theorem lex_reads_past_end :
  forall p pre ws lit ds rest,
    scanning p pre (ws ++ lit) (ds ++ rest) ->
    forallb is_blank ws = true ->
    is_int_literal lit = true ->
    forallb isdigit ds = true ->
    stops isdigit rest ->
    len (tok (lex p)) = List.length lit /\
    ptr (lex p) = end_ p /\
    view_of (tok (lex p))
    = VInt (Z.max INT64_MIN (Z.min INT64_MAX (literal_value (lit ++ ds)))).
Proof.
  intros p pre ws lit ds rest Sc B L D St.
  destruct (int_literal_shape lit L) as (c & run & -> & Tc & Dr).
  assert (Sc' : scanning p pre (ws ++ c :: run ++ []) (ds ++ rest))
    by (rewrite app_nil_r; exact Sc).
  destruct (lex_int_value p pre ws c run [] (ds ++ rest) Sc' B Tc Dr I)
    as (_ & Ln & V).
  pose proof (digits_are_tok_chars run Dr) as T.
  destruct (lex_token p pre ws c run [] (ds ++ rest) Sc' B Tc T I)
    as (p' & l & col & Lx & (_ & _ & P & _)).
  split; [exact Ln|]. split.
  - rewrite Lx. simpl. rewrite P.
    destruct Sc as (_ & _ & _ & En). rewrite En.
    rewrite !length_app. simpl. rewrite !length_app. simpl. lia.
  - rewrite V. f_equal. simpl app.
    change (c :: run ++ ds ++ rest) with ((c :: run) ++ ds ++ rest).
    rewrite app_assoc.
    now rewrite (strtol10_literal _ rest (int_literal_more_digits _ ds L D) St).
Qed.

Lemma lex_reads_past_end_witness :
  len (tok (lex (fresh (chars "1234") 2))) = 2%nat /\
  view_of (tok (lex (fresh (chars "1234") 2))) = VInt 1234.
Proof.
  assert (Sc : scanning (fresh (chars "1234") 2) [] ([] ++ chars "12")
                 (chars "34" ++ [])) by (repeat split).
  destruct (lex_reads_past_end _ [] [] (chars "12") (chars "34") []
              Sc eq_refl eq_refl eq_refl I) as (A & _ & C).
  split; [exact A | exact C].
Defined.

(** ** Lines and columns *)

Lemma newlines_between_same mem a : newlines_between mem a a = 0.
Proof. unfold newlines_between. now rewrite Nat.sub_diag. Qed.

Lemma newlines_between_nonneg mem a b : 0 <= newlines_between mem a b.
Proof. unfold newlines_between. lia. Qed.

Lemma newlines_between_split mem a b c :
  (a <= b <= c)%nat ->
  newlines_between mem a c
  = newlines_between mem a b + newlines_between mem b c.
Proof.
  intros H. unfold newlines_between.
  replace (c - a)%nat with ((b - a) + (c - b))%nat by lia.
  rewrite seq_app, filter_app, length_app, Nat2Z.inj_add.
  replace (S a + (b - a))%nat with (S b) by lia. reflexivity.
Qed.

Lemma newlines_between_step mem a :
  newlines_between mem a (S a) = if nth (S a) mem 0 =? 10 then 1 else 0.
Proof.
  unfold newlines_between.
  replace (S a - a)%nat with 1%nat by lia. simpl.
  now destruct (nth (S a) mem 0 =? 10).
Qed.

Lemma tracked_refl p : tracked p p.
Proof.
  unfold tracked. rewrite newlines_between_same, Nat.sub_diag.
  repeat split; auto; simpl; lia.
Qed.

Lemma tracked_trans p q r : tracked p q -> tracked q r -> tracked p r.
Proof.
  intros (S1 & P1 & L1 & C1) (S2 & P2 & L2 & C2).
  rewrite S1 in L2, C2.
  pose proof (newlines_between_split (src p) (ptr p) (ptr q) (ptr r)
                (conj P1 P2)) as Sp.
  pose proof (newlines_between_nonneg (src p) (ptr p) (ptr q)).
  pose proof (newlines_between_nonneg (src p) (ptr q) (ptr r)).
  repeat split.
  - congruence.
  - lia.
  - lia.
  - intros Z0. rewrite C2, C1 by lia. lia.
Qed.

Lemma advance_tracked p : tracked p (snd (advance p)).
Proof.
  unfold advance. destruct (error p); [apply tracked_refl|].
  destruct (ptr p =? end_ p)%nat; [apply tracked_refl|].
  unfold tracked, deref.
  pose proof (newlines_between_step (src p) (ptr p)) as St.
  assert (D : (S (ptr p) - ptr p = 1)%nat) by lia.
  destruct (nth (S (ptr p)) (src p) 0 =? 10);
    cbn [snd set_cursor src ptr line column]; rewrite St, D;
    repeat split; lia.
Qed.

Lemma skip_comment_tracked fuel : forall p, tracked p (skip_comment fuel p).
Proof.
  induction fuel as [|n IH]; intros p; simpl;
    destruct (negb (peek p =? 10) && negb (peek p =? EOF));
    try apply tracked_refl.
  eapply tracked_trans; [apply advance_tracked | apply IH].
Qed.

Lemma skip_whitespace_loop_tracked fuel :
  forall p, tracked p (skip_whitespace_loop fuel p).
Proof.
  induction fuel as [|n IH]; intros p; simpl;
    (destruct ((peek p =? 9) || (peek p =? 13) || (peek p =? 32) || (peek p =? 10));
     [|destruct (peek p =? 35)]); try apply tracked_refl.
  - eapply tracked_trans; [apply advance_tracked | apply IH].
  - eapply tracked_trans; [apply skip_comment_tracked | apply IH].
Qed.

Lemma make_token_loop_tracked fuel :
  forall p n st, tracked p (fst (fst (make_token_loop fuel p n st))).
Proof.
  induction fuel as [|k IH]; intros p n st; simpl;
    pose proof (advance_tracked p) as A;
    destruct (advance p) as [c p']; simpl in A;
    destruct (negb (is_tok_char c)); simpl; auto.
  eapply tracked_trans; [exact A | apply IH].
Qed.

Lemma set_tok_tracked p q t : tracked p q -> tracked p (set_tok q t).
Proof. intros H. exact H. Qed.

Lemma make_token_tracked p : tracked p (make_token p).
Proof.
  unfold make_token.
  pose proof (advance_tracked p) as A.
  pose proof (make_token_loop_tracked
                (end_ (snd (advance p)) - ptr (snd (advance p)))
                (snd (advance p)) 1 STATE_INT) as B.
  destruct (make_token_loop _ _ _ _) as [[p2 n] st]. simpl in B.
  apply set_tok_tracked. eapply tracked_trans; eassumption.
Qed.

Lemma lex_tracked p : tracked p (lex p).
Proof.
  unfold lex. destruct (error p); [apply tracked_refl|].
  pose proof (skip_whitespace_loop_tracked (end_ p - ptr p) p) as A.
  fold (skip_whitespace p) in A.
  set (p1 := skip_whitespace p) in *.
  set (p2 := set_tok p1 _).
  assert (B : tracked p p2) by exact A.
  destruct (peek p2 =? EOF); [exact B|].
  destruct (is_tok_char (peek p2)); [|exact B].
  eapply tracked_trans; [exact B | apply make_token_tracked].
Qed.

Lemma set_error_tracked p e : tracked p (set_error p e).
Proof. apply (tracked_refl p). Qed.

Lemma syntax_error_tracked p k : tracked p (syntax_error p k).
Proof.
  unfold syntax_error, parse_fail.
  destruct (error p); [apply tracked_refl | apply set_error_tracked].
Qed.

Lemma run_tracked o p : tracked p (run o p).
Proof.
  destruct o; simpl.
  - unfold parse_fail.
    destruct (error p); [apply tracked_refl | apply set_error_tracked].
  - apply lex_tracked.
  - apply tracked_refl.
  - unfold match_. destruct (negb (have p k)); simpl;
      [apply tracked_refl | apply lex_tracked].
  - unfold expect. destruct (error p); [apply tracked_refl|].
    destruct (negb (have p k)); [apply syntax_error_tracked | apply lex_tracked].
  - apply syntax_error_tracked.
  - unfold parse_int. destruct (error p); simpl; [apply tracked_refl|].
    destruct (negb (have p TOK_INT)); [|apply lex_tracked].
    eapply tracked_trans; [apply syntax_error_tracked | apply lex_tracked].
  - unfold parse_float. destruct (error p); simpl; [apply tracked_refl|].
    destruct (negb (have p TOK_INT) && negb (have p TOK_FLOAT)); simpl;
      [apply syntax_error_tracked | apply lex_tracked].
  - unfold parse_text. destruct (error p); simpl; [apply tracked_refl|].
    destruct (negb (have p TOK_TEXT)); simpl; [apply syntax_error_tracked|].
    destruct out; simpl; apply lex_tracked.
Qed.

(** X10.  Over any sequence of operations the line counter grows by the
    number of newline bytes at the offsets from one past the old cursor up to
    and including the new cursor: a newline is counted when the cursor comes
    to stand on it, not when it is consumed, and one under the cursor at the
    start is never counted.  When there is no such newline, the column grows
    by the number of bytes consumed. *)
Theorem line_counts_newlines_ahead :
  forall (os : list op) (p : parser_t),
    line (run_all os p)
    = line p + newlines_between (src p) (ptr p) (ptr (run_all os p)) /\
    (newlines_between (src p) (ptr p) (ptr (run_all os p)) = 0 ->
     column (run_all os p)
     = column p + Z.of_nat (ptr (run_all os p) - ptr p)).
Proof.
  assert (T : forall os p, tracked p (run_all os p)).
  { induction os as [|o os IH]; intros p; [apply tracked_refl|].
    simpl. eapply tracked_trans; [apply run_tracked | apply IH]. }
  intros os p. destruct (T os p) as (_ & _ & L & C). split; assumption.
Qed.

(** X11.  The line recorded in the token [lex] makes is the line counter
    before the call plus the number of newline bytes at the offsets from one
    past the old cursor up to the token's start. *)
Theorem token_line_origin :
  forall p : parser_t,
    error p = None ->
    tok_line (tok (lex p))
    = line p + newlines_between (src p) (ptr p) (start (tok (lex p))) /\
    (ptr p <= start (tok (lex p)) <= ptr (lex p))%nat.
Proof.
  intros p E.
  pose proof (skip_whitespace_loop_tracked (end_ p - ptr p) p) as A.
  fold (skip_whitespace p) in A.
  unfold lex. rewrite E.
  set (p1 := skip_whitespace p) in *.
  set (p2 := set_tok p1 (set_origin (tok p1) (ptr p1) (line p1) (column p1))).
  destruct A as (_ & P & L & _).
  destruct (peek p2 =? EOF); [simpl; split; [exact L | lia]|].
  destruct (is_tok_char (peek p2)); [|simpl; split; [exact L | lia]].
  unfold make_token.
  pose proof (advance_tracked p2) as (_ & P3 & _).
  destruct (advance_same_token p2) as [_ T3].
  set (p3 := snd (advance p2)) in *.
  pose proof (make_token_loop_tracked (end_ p3 - ptr p3) p3 1 STATE_INT)
    as (_ & P4 & _).
  pose proof (make_token_loop_same_token (end_ p3 - ptr p3) p3 1 STATE_INT)
    as [_ T4].
  destruct (make_token_loop _ p3 1%nat STATE_INT) as [[p4 n] st].
  simpl in P4, T4.
  assert (O : tok_line (tok p4) = line p1 /\ start (tok p4) = ptr p1)
    by (rewrite T4, T3; split; reflexivity).
  destruct O as [O1 O2].
  assert (P2 : ptr p2 = ptr p1) by reflexivity.
  destruct (kind_of_state st); simpl; rewrite ?O1, ?O2; (split; [exact L | lia]).
Qed.

Lemma token_line_origin_witness :
  tok_line (tok (lex (fresh (10 :: 10 :: chars "ab") 4))) = 1 /\
  start (tok (lex (fresh (10 :: 10 :: chars "ab") 4))) = 2%nat.
Proof.
  destruct (token_line_origin (fresh (10 :: 10 :: chars "ab") 4) eq_refl)
    as [A _].
  split; [exact A | reflexivity].
Defined.

(** ** What [parse_text] copies *)

(** X12.  With the current token a word and a buffer given, [parse_text]
    returns the smaller of [cap] and the token's length, and writes [cap]
    bytes taken from the source at the token's start, however long the token
    is (here for a source without NUL among those bytes): with [cap] above
    the token's length the bytes after the lexeme are copied too, and no
    terminator is written. *)
Theorem parse_text_copies_cap :
  forall (p : parser_t) (buf : list Z) (cap : nat),
    error p = None ->
    kind (tok p) = TOK_TEXT ->
    List.length (firstn cap (skipn (start (tok p)) (src p))) = cap ->
    Forall (fun c => c <> 0) (firstn cap (skipn (start (tok p)) (src p))) ->
    parse_text p (Some buf) cap
    = (Nat.min cap (len (tok p)), lex p,
       Some (firstn cap (skipn (start (tok p)) (src p)) ++ skipn cap buf)).
Proof.
  intros p buf cap E K Len NZ. apply have_true in K.
  unfold parse_text. rewrite E, K. simpl.
  unfold strncpy. rewrite strncpy_bytes_skipn.
  rewrite (strncpy_bytes_firstn cap _ Len NZ).
  f_equal. f_equal.
  destruct (cap <? len (tok p))%nat eqn:C.
  - apply Nat.ltb_lt in C. lia.
  - apply Nat.ltb_ge in C. lia.
Qed.

Lemma parse_text_copies_cap_witness :
  parse_text (lex (fresh (chars "abc def") 7)) (Some [0; 0; 0; 0; 0; 0]) 5
  = (3%nat, lex (lex (fresh (chars "abc def") 7)), Some (chars "abc d" ++ [0])).
Proof.
  apply (parse_text_copies_cap (lex (fresh (chars "abc def") 7))
           [0; 0; 0; 0; 0; 0] 5 eq_refl eq_refl eq_refl).
  vm_compute. repeat constructor; discriminate.
Defined.

(** ** Calls in a row *)

Lemma view_int_i64 t v : kind t = TOK_INT -> view_of t = VInt v -> i64 t = v.
Proof. unfold view_of. intros ->. congruence. Qed.

Lemma parse_ints_literals rest :
  forall p pre ws lit trail,
    scanning p pre (ws ++ lit ++ spaced rest trail) [] ->
    forallb is_blank ws = true ->
    valid_literal lit ->
    Forall item_ok rest ->
    Forall (fun it => fst it <> []) rest ->
    forallb is_blank trail = true ->
    fst (parse_ints (S (List.length rest)) (lex p))
    = literal_value lit :: map (fun it => literal_value (snd it)) rest /\
    kind (tok (snd (parse_ints (S (List.length rest)) (lex p)))) = TOK_EOF /\
    error (snd (parse_ints (S (List.length rest)) (lex p))) = None.
Proof.
  induction rest as [|[ws1 lit1] rest IH];
    intros p pre ws lit trail Sc B V Ok Sep Tr.
  - simpl in Sc.
    destruct (lex_literal p pre ws lit trail Sc B V (trail_stops trail Tr))
      as (K & Vw & Sc').
    assert (E : error (lex p) = None) by apply Sc'.
    simpl. rewrite (parse_int_integer _ E K). simpl.
    rewrite (view_int_i64 _ _ K Vw). split; [reflexivity|].
    assert (Bt : forallb is_blank (skipn 1 trail) = true)
      by (apply (blanks_tail trail Tr)).
    split; [apply (lex_eof _ _ _ _ Sc' Bt)|].
    now rewrite lex_error.
  - simpl in Sc.
    inversion Ok as [|? ? [B1 V1] Ok']; subst.
    inversion Sep as [|? ? N1 Sep']; subst. simpl in B1, V1, N1.
    destruct ws1 as [|w ws1]; [congruence|].
    assert (St : stops is_tok_char ((w :: ws1) ++ lit1 ++ spaced rest trail))
      by (apply blanks_stop; [exact B1 | discriminate]).
    destruct (lex_literal p pre ws lit _ Sc B V St) as (K & Vw & Sc').
    assert (E : error (lex p) = None) by apply Sc'.
    simpl in Sc'.
    destruct (IH (lex p) (pre ++ ws ++ lit ++ [w]) ws1 lit1 trail Sc'
                (blanks_tail _ B1) V1 Ok' Sep' Tr) as (R1 & R2 & R3).
    change (parse_ints (S (List.length ((w :: ws1, lit1) :: rest))) (lex p))
      with (let (v, p1) := parse_int (lex p) in
            let (vs, p2) := parse_ints (S (List.length rest)) p1 in
            (v :: vs, p2)).
    rewrite (parse_int_integer _ E K).
    destruct (parse_ints (S (List.length rest)) (lex (lex p))) as [vs p2].
    simpl in *. rewrite (view_int_i64 _ _ K Vw), R1. auto.
Qed.

(** X13.  On a buffer of N valid integer literals separated by blanks, N
    calls of [parse_int] after [parse_init] return the values of the literals
    in order and latch no error, and leave the end-of-file token current; one
    call more latches "found the end of file, but needed an integer". *)
Theorem parse_ints_reads_all :
  forall (items : list (list Z * list Z)) (trail : list Z),
    items <> [] ->
    Forall item_ok items ->
    separated items ->
    forallb is_blank trail = true ->
    exists p0,
      parse_init (spaced items trail) (List.length (spaced items trail)) = Some p0 /\
      fst (parse_ints (List.length items) p0)
      = map (fun it => literal_value (snd it)) items /\
      error (snd (parse_ints (List.length items) p0)) = None /\
      kind (tok (snd (parse_ints (List.length items) p0))) = TOK_EOF /\
      error (snd (parse_int (snd (parse_ints (List.length items) p0))))
      = Some (mismatch TOK_EOF TOK_INT).
Proof.
  intros items trail Ne Ok Sep Tr.
  destruct items as [|[ws lit] rest]; [congruence|].
  set (mem := spaced ((ws, lit) :: rest) trail).
  assert (Sc : scanning (fresh mem (List.length mem)) [] mem []).
  { repeat split; simpl. now rewrite app_nil_r. }
  inversion Ok as [|? ? [B V] Ok']; subst. simpl in B, V.
  assert (N : List.length mem <> O).
  { destruct V as [L _]. destruct lit; [discriminate|].
    unfold mem. simpl. rewrite !length_app. simpl. lia. }
  exists (lex (fresh mem (List.length mem))).
  split; [now apply parse_init_lexes|].
  destruct (parse_ints_literals rest _ [] ws lit trail Sc B V Ok' Sep Tr)
    as (R1 & R2 & R3).
  simpl List.length. split; [exact R1|]. split; [exact R3|]. split; [exact R2|].
  rewrite parse_int_mismatch; [rewrite R2; reflexivity | exact R3|].
  rewrite R2. discriminate.
Qed.

Lemma parse_ints_reads_all_witness :
  exists p0,
    parse_init (chars "3 -14 +15") 9 = Some p0 /\
    fst (parse_ints 3 p0) = [3; -14; 15].
Proof.
  destruct (parse_ints_reads_all
              [([], chars "3"); (chars " ", chars "-14"); (chars " ", chars "+15")]
              []) as (p0 & A & B & _).
  - discriminate.
  - repeat constructor; vm_compute; congruence.
  - repeat constructor; vm_compute; congruence.
  - reflexivity.
  - exists p0. split; [exact A | exact B].
Defined.

(** ** The helpers on a token of another kind *)

(** X14.  [parse_float] takes an integer literal as well as a float: on a
    buffer positioned before a valid integer literal, lexing it and calling
    [parse_float] returns the literal's value converted to [double], latches
    no error and moves on to the next token. *)
Theorem parse_float_takes_integer :
  forall p pre ws lit post,
    scanning p pre (ws ++ lit ++ post) [] ->
    forallb is_blank ws = true ->
    valid_literal lit ->
    stops is_tok_char post ->
    parse_float (lex p) = (double_of_i64 (literal_value lit), lex (lex p)) /\
    error (lex (lex p)) = None.
Proof.
  intros p pre ws lit post Sc B V St.
  destruct (lex_literal p pre ws lit post Sc B V St) as (K & Vw & Sc').
  assert (E : error (lex p) = None) by apply Sc'.
  split; [|now rewrite lex_error].
  unfold parse_float, have. rewrite E, K. simpl.
  now rewrite (view_int_i64 _ _ K Vw).
Qed.

Lemma parse_float_takes_integer_witness :
  fst (parse_float (lex (fresh (chars "-42") 3))) = 0xC045000000000000.
Proof.
  assert (Sc : scanning (fresh (chars "-42") 3) [] ([] ++ chars "-42" ++ []) [])
    by (repeat split).
  assert (V : valid_literal (chars "-42"))
    by (repeat split; vm_compute; congruence).
  destruct (parse_float_takes_integer _ [] [] (chars "-42") [] Sc eq_refl V I)
    as [A _].
  rewrite A. reflexivity.
Defined.

(** X15.  On a token that is neither an integer nor a float [parse_float]
    returns NaN, and on a token that is no word [parse_text] returns 0 and
    hands the output buffer back as it was; both latch the mismatch and
    change nothing else, so the cursor and the current token stay (unlike
    [parse_int], neither reads the token's value). *)
Theorem helpers_on_mismatch :
  forall p : parser_t,
    error p = None ->
    (kind (tok p) <> TOK_INT -> kind (tok p) <> TOK_FLOAT ->
     parse_float p
     = (NAN, set_error p (Some (mismatch (kind (tok p)) TOK_FLOAT)))) /\
    (kind (tok p) <> TOK_TEXT ->
     forall out cap,
       parse_text p out cap
       = (O, set_error p (Some (mismatch (kind (tok p)) TOK_TEXT)), out)).
Proof.
  intros p E. split.
  - intros K1 K2. apply have_false in K1. apply have_false in K2.
    unfold parse_float. rewrite E, K1, K2. simpl.
    now rewrite (syntax_error_latches p _ E).
  - intros K out cap. apply have_false in K.
    unfold parse_text. rewrite E, K. simpl.
    now rewrite (syntax_error_latches p _ E).
Qed.

Lemma helpers_on_mismatch_witness :
  parse_float at_word
  = (NAN, set_error at_word (Some "found a word, but needed a number"%string)).
Proof.
  destruct (helpers_on_mismatch at_word eq_refl) as [A _].
  apply A; vm_compute; discriminate.
Defined.

(** ** Messages *)

(** X16.  The message of a mismatch tells the two kinds: two mismatches with
    the same text found the same kind and needed the same kind. *)
Theorem mismatch_injective :
  forall f n f' n' : tok_kind_t,
    mismatch f n = mismatch f' n' -> f = f' /\ n = n'.
Proof.
  intros f n f' n' H.
  destruct f, f'; try (vm_compute in H; discriminate H);
    destruct n, n'; try (vm_compute in H; discriminate H);
    split; reflexivity.
Qed.

Lemma mismatch_injective_witness :
  TOK_EOF = TOK_EOF /\ TOK_INT = TOK_INT.
Proof.
  apply (mismatch_injective TOK_EOF TOK_INT TOK_EOF TOK_INT). reflexivity.
Defined.

(** ** [lex] on any input *)

Lemma token_run_split l : l = token_run l ++ after_run l.
Proof.
  induction l as [|c r IH]; [reflexivity|]. simpl.
  destruct (is_tok_char c); [simpl; now rewrite <- IH | reflexivity].
Qed.

Lemma token_run_tok_chars l : forallb is_tok_char (token_run l) = true.
Proof.
  induction l as [|c r IH]; [reflexivity|]. simpl.
  destruct (is_tok_char c) eqn:T; [simpl; now rewrite T | reflexivity].
Qed.

Lemma after_run_stops l : stops is_tok_char (after_run l).
Proof.
  induction l as [|c r IH]; [exact I|]. simpl.
  destruct (is_tok_char c) eqn:T; [exact IH | exact T].
Qed.

(** X17.  With the cursor on a token character [c], whatever bytes [r]
    follow in the span, [lex] takes the longest run of token characters: the
    lexeme is [c] and all the token characters at the head of [r], its kind
    follows from that run, and the cursor is left after the one byte that
    ends the run, or on the end of the span when the run reaches it. *)
Theorem lex_longest_run :
  forall p pre c r b,
    scanning p pre (c :: r) b ->
    is_tok_char c = true ->
    lexeme (lex p) = c :: token_run r /\
    kind (tok (lex p)) = kind_by_shape (token_run r) /\
    start (tok (lex p)) = ptr p /\
    scanning (lex p) (pre ++ c :: token_run r ++ firstn 1 (after_run r))
             (skipn 1 (after_run r)) b.
Proof.
  intros p pre c r b Sc Tc.
  assert (Sc' : scanning p pre ([] ++ c :: token_run r ++ after_run r) b)
    by (simpl; rewrite <- token_run_split; exact Sc).
  pose proof (token_run_tok_chars r) as T.
  pose proof (after_run_stops r) as St.
  pose proof (lex_token_lexeme p pre [] c _ _ b Sc' eq_refl Tc T St) as Lx.
  destruct (lex_token p pre [] c _ _ b Sc' eq_refl Tc T St)
    as (p' & l & col & L & Sc2).
  split; [exact Lx|]. rewrite L. simpl.
  rewrite finished_token_kind, finished_token_start, classify_by_shape. simpl.
  split; [reflexivity|]. split; [|exact Sc2].
  destruct Sc as (_ & _ & P & _). now rewrite app_nil_r, P.
Qed.

Lemma lex_longest_run_witness :
  lexeme (lex (fresh (chars "a+b.c-1(x)") 10)) = chars "a+b.c-1" /\
  ptr (lex (fresh (chars "a+b.c-1(x)") 10)) = 8%nat.
Proof.
  assert (Sc : scanning (fresh (chars "a+b.c-1(x)") 10) []
                 (97 :: chars "+b.c-1(x)") []) by (repeat split).
  destruct (lex_longest_run _ [] 97 (chars "+b.c-1(x)") [] Sc eq_refl)
    as (A & _ & _ & (_ & _ & P & _)).
  split; [exact A | exact P].
Defined.

(** ** [skip_whitespace] on any input *)

(** X18.  On a parser without error whose cursor is within its span,
    [skip_whitespace] ends, for every input, in front of the end of the
    input or of a byte that is neither one of the four blanks nor [#]; it
    leaves the current token and the error slot alone and moves the cursor
    forward only.  Skipping first changes nothing for [lex]. *)
Theorem skip_whitespace_post :
  forall p : parser_t,
    error p = None ->
    (ptr p <= end_ p)%nat ->
    is_blank (peek (skip_whitespace p)) || (peek (skip_whitespace p) =? 35) = false /\
    tok (skip_whitespace p) = tok p /\
    error (skip_whitespace p) = None /\
    (ptr p <= ptr (skip_whitespace p) <= end_ p)%nat /\
    lex (skip_whitespace p) = lex p.
Proof.
  intros p E B.
  destruct (skip_whitespace_exits p E B) as [W Bd].
  destruct (skip_whitespace_same_token p) as [(_ & _ & _ & E1) T1].
  rewrite E in E1.
  split; [exact W|]. split; [exact T1|]. split; [exact E1|]. split; [exact Bd|].
  unfold lex. rewrite E, E1.
  assert (R : skip_whitespace (skip_whitespace p) = skip_whitespace p)
    by (apply skip_whitespace_loop_stopped; exact W).
  now rewrite R.
Qed.

Lemma skip_whitespace_post_witness :
  ptr (skip_whitespace (fresh (chars " # x" ++ 10 :: chars "  y") 8)) = 7%nat /\
  lex (skip_whitespace (fresh (chars " # x" ++ 10 :: chars "  y") 8))
  = lex (fresh (chars " # x" ++ 10 :: chars "  y") 8).
Proof.
  split; [reflexivity|].
  refine (proj2 (proj2 (proj2 (proj2
            (skip_whitespace_post
               (fresh (chars " # x" ++ 10 :: chars "  y") 8) eq_refl _))))).
  vm_compute. lia.
Defined.

(** ** Progress *)

Lemma make_token_loop_progress fuel :
  forall p n st,
    (n <= snd (fst (make_token_loop fuel p n st)))%nat /\
    (ptr p + (snd (fst (make_token_loop fuel p n st)) - n)
     <= ptr (fst (fst (make_token_loop fuel p n st))))%nat.
Proof.
  induction fuel as [|k IH]; intros p n st; simpl;
    pose proof (advance_tok_char p) as A;
    pose proof (advance_ptr p) as P;
    pose proof (advance_tracked p) as (_ & Q & _);
    destruct (advance p) as [c p']; simpl in A, P, Q;
    destruct (is_tok_char c); cbn [negb fst snd]; try lia.
  - destruct A as [E N]; [reflexivity|]. specialize (P E N). lia.
  - destruct A as [E N]; [reflexivity|]. specialize (P E N).
    destruct (IH p' (S n) (classify_step st c)) as [I1 I2]. lia.
Qed.

(** X19.  On a parser without error whose cursor is within its span, a call
    of [lex] that makes an integer, a float or a word moves the cursor
    forward by one byte at least; the token is not empty and lies between
    the old and the new cursor. *)
Theorem lex_progress :
  forall p : parser_t,
    error p = None ->
    (ptr p <= end_ p)%nat ->
    kind (tok (lex p)) <> TOK_EOF ->
    kind (tok (lex p)) <> TOK_INVALID ->
    (ptr p < ptr (lex p))%nat /\
    (1 <= len (tok (lex p)))%nat /\
    (ptr p <= start (tok (lex p)))%nat /\
    (start (tok (lex p)) + len (tok (lex p)) <= ptr (lex p))%nat.
Proof.
  intros p E B.
  destruct (skip_whitespace_exits p E B) as [_ B1].
  set (p1 := skip_whitespace p) in *.
  set (p2 := set_tok p1 (set_origin (tok p1) (ptr p1) (line p1) (column p1))).
  assert (L : lex p
              = if peek p2 =? EOF then set_tok p2 (set_kind (tok p2) TOK_EOF)
                else if is_tok_char (peek p2) then make_token p2
                     else set_tok p2 (set_kind (tok p2) TOK_INVALID))
    by (unfold lex; rewrite E; reflexivity).
  rewrite L. clear L.
  destruct (peek p2 =? EOF); [simpl; congruence|].
  destruct (is_tok_char (peek p2)) eqn:T; [|simpl; congruence].
  intros _ _.
  assert (N : error p2 = None /\ ptr p2 <> end_ p2).
  { unfold peek in T. destruct (error p2); [discriminate|].
    destruct (ptr p2 =? end_ p2)%nat eqn:H; [discriminate|].
    split; [reflexivity | now apply Nat.eqb_neq]. }
  destruct N as [E2 N2].
  pose proof (advance_ptr p2 E2 N2) as P3.
  destruct (advance_same_token p2) as [_ T3].
  unfold make_token.
  set (p3 := snd (advance p2)) in *.
  destruct (make_token_loop_progress (end_ p3 - ptr p3) p3 1 STATE_INT)
    as [I1 I2].
  pose proof (make_token_loop_same_token (end_ p3 - ptr p3) p3 1 STATE_INT)
    as [_ T4].
  destruct (make_token_loop _ p3 1%nat STATE_INT) as [[p4 n] st].
  simpl in I1, I2, T4.
  assert (P2 : ptr p2 = ptr p1) by reflexivity.
  assert (S4 : start (tok p4) = ptr p1) by (rewrite T4, T3; reflexivity).
  destruct (kind_of_state st); simpl; rewrite ?S4; lia.
Qed.

Lemma lex_progress_witness :
  (0 < ptr (lex (fresh (chars "  abc") 5)))%nat.
Proof.
  refine (proj1 (lex_progress (fresh (chars "  abc") 5) eq_refl _ _ _)).
  - vm_compute. lia.
  - vm_compute. discriminate.
  - vm_compute. discriminate.
Defined.

(** ** What [expect] advances over *)





